(** * Treemendous: the tree engine of [tree.py]

    A shallow embedding of the module [tree.py] (markup translator
    [GVParser], the [Node] objects and the [Tree] document) together
    with the properties its specification states about it.

    Python objects live in an explicit object store, so that the
    aliasing between a node, its parent and the document's selection
    is the one the program has.  Exceptions are values of [exn] and
    every method that can raise returns a [result]. *)

From stdpp Require Import base option list strings gmap pretty.
From Stdlib Require Import ZArith Lia Ascii.


(** ** Exceptions and the error monad *)

Module Py.

(** What an [IncompatibleFormatError] was raised for; the message
    itself goes through gettext, so the payload keeps the arguments
    of its format string. *)
Inductive format_problem :=
| TooNew (my_version their_version : string)
| Unreadable.

Inductive exn :=
| AssertionError
| IndexError
| ValueError
| AttributeError
| RecursionError
| KeyError
| BadZipFile
| FileNotFoundError
| SaveError (msg : string)
| SelectionError (msg : string)
| TreemendousError (msg : string)
| IncompatibleFormatError (why : format_problem)
| InvalidReference.   (* a reference outside the store: no Python run has one *)

Inductive result (A : Type) :=
| Ok (a : A)
| Raise (e : exn).
Arguments Ok {A} a.
Arguments Raise {A} e.

#[export] Instance result_ret : MRet result := fun A a => Ok a.
#[export] Instance result_bind : MBind result := fun A B f m =>
  match m with Ok a => f a | Raise e => Raise e end.

(** [deque.pop()] / [list.pop()]: remove and return the rightmost item. *)
Fixpoint pop_right {A} (l : list A) : result (list A * A) :=
  match l with
  | [] => Raise IndexError
  | [x] => Ok ([], x)
  | x :: l' => '(r, y) ← pop_right l'; Ok (x :: r, y)
  end.

(** [list.index(x)]: position of the first occurrence. *)
Fixpoint index `{EqDecision A} (x : A) (l : list A) : result nat :=
  match l with
  | [] => Raise ValueError
  | y :: l' => if decide (y = x) then Ok 0 else i ← index x l'; Ok (S i)
  end.

(** [list.remove(x)]: drop the first occurrence. *)
Fixpoint remove `{EqDecision A} (x : A) (l : list A) : result (list A) :=
  match l with
  | [] => Raise ValueError
  | y :: l' => if decide (y = x) then Ok l' else r ← remove x l'; Ok (y :: r)
  end.

(** [list.pop(i)] for an index that [index] returned (never negative). *)
Definition pop_at {A} (i : nat) (l : list A) : result (list A * A) :=
  match l !! i with
  | Some x => Ok (delete i l, x)
  | None => Raise IndexError
  end.

(** [list.insert(i, x)]: a negative index counts from the end, and an
    index out of range is clamped to the nearest end. *)
Definition insert_at {A} (i : Z) (x : A) (l : list A) : list A :=
  let n := Z.of_nat (length l) in
  let j := (if i <? 0 then Z.max 0 (i + n) else Z.min i n)%Z in
  take (Z.to_nat j) l ++ x :: drop (Z.to_nat j) l.

(** [s.endswith(suffix)] *)
Definition endswith (s suffix : string) : bool :=
  let n := String.length s in
  let k := String.length suffix in
  (k <=? n) && String.eqb (String.substring (n - k) k s) suffix.

(** [s.split(".")[0]]: the text before the first dot. *)
Fixpoint before_dot (s : string) : string :=
  match s with
  | EmptyString => EmptyString
  | String c s' => if Ascii.eqb c "."%char then EmptyString else String c (before_dot s')
  end.

Definition is_space (c : Ascii.ascii) : bool :=
  let n := Ascii.nat_of_ascii c in
  (n =? 32) || ((9 <=? n) && (n <=? 13)).

Fixpoint lstrip (s : string) : string :=
  match s with
  | String c s' => if is_space c then lstrip s' else s
  | EmptyString => EmptyString
  end.
Definition strip (s : string) : string :=
  String.rev (lstrip (String.rev (lstrip s))).

Definition digit (c : Ascii.ascii) : option Z :=
  let n := Ascii.nat_of_ascii c in
  if (48 <=? n) && (n <=? 57) then Some (Z.of_nat (n - 48)) else None.

(** The digits of a decimal literal; single underscores may separate them. *)
Fixpoint digits (acc : Z) (after_digit : bool) (s : string) : option Z :=
  match s with
  | EmptyString => if after_digit then Some acc else None
  | String c s' =>
      if Ascii.eqb c "_"%char then (if after_digit then digits acc false s' else None)
      else match digit c with
           | Some d => digits (10 * acc + d)%Z true s'
           | None => None
           end
  end.

(** [int(s)] for ASCII text: surrounding white space, a sign, decimal digits. *)
Definition int (s : string) : result Z :=
  let body :=
    match strip s with
    | String "-"%char s' => Z.opp <$> digits 0 false s'
    | String "+"%char s' => digits 0 false s'
    | s' => digits 0 false s'
    end in
  match body with Some z => Ok z | None => Raise ValueError end.

End Py.
Import Py.

(** ** The markup translator, [GVParser] *)

Module GVParser.

(** The calls [HTMLParser] makes on its handlers.  The tokenizer is the
    standard library's; the translator only sees this stream.
    [handle_startendtag] is not overridden, so [<t/>] arrives as a start
    tag followed by an end tag; comments, declarations and processing
    instructions reach handlers that do nothing. *)
Inductive event :=
| StartTag (tag : string) (attrs : list (string * option string))
| EndTag (tag : string)
| StartEndTag (tag : string) (attrs : list (string * option string))
| Data (data : string)
| Ignored.

Record state := mk {
  valid : bool;
  _tag_stack : list string;
  _math_stack : list string;
  tex : string;
  data : string
}.

Definition TEX_MAP : list (string * string) :=
  [ ("b", "\textbf{"); ("i", "\textit{"); ("u", "\underline{");
    ("sup", "^{"); ("sub", "_{"); ("null", "{\O"); ("bar", "^{\prime") ].
Definition MATHMODE_REQUIRED : list string := ["sup"; "sub"; "null"; "bar"].
Definition SPECIALS : list string := ["null"; "bar"].

Fixpoint lookup_tex (tag : string) (m : list (string * string)) : option string :=
  match m with
  | [] => None
  | (k, v) :: m' => if String.eqb k tag then Some v else lookup_tex tag m'
  end.

Definition mem (tag : string) (l : list string) : bool :=
  existsb (String.eqb tag) l.

Definition upper (c : Ascii.ascii) : Ascii.ascii :=
  let n := Ascii.nat_of_ascii c in
  if (97 <=? n) && (n <=? 122) then Ascii.ascii_of_nat (n - 32) else c.
Definition lower (c : Ascii.ascii) : Ascii.ascii :=
  let n := Ascii.nat_of_ascii c in
  if (65 <=? n) && (n <=? 90) then Ascii.ascii_of_nat (n + 32) else c.
Fixpoint map_string (f : Ascii.ascii -> Ascii.ascii) (s : string) : string :=
  match s with
  | EmptyString => EmptyString
  | String c s' => String (f c) (map_string f s')
  end.
(** [str.capitalize()] on ASCII text. *)
Definition capitalize (s : string) : string :=
  match s with
  | EmptyString => EmptyString
  | String c s' => String (upper c) (map_string lower s')
  end.

Definition reset : state :=
  {| valid := true; _tag_stack := []; _math_stack := []; tex := ""; data := "" |}.

Definition handle_starttag (tag : string) (attrs : list (string * option string))
    (p : state) : state :=
  let p := match attrs with
           | [] => p
           | _ :: _ => mk false (_tag_stack p) (_math_stack p) (tex p) (data p)
           end in
  let p :=
    match lookup_tex tag TEX_MAP with
    | None =>
        mk false (_tag_stack p) (_math_stack p) (tex p +:+ "<" +:+ tag +:+ ">") (data p)
    | Some open =>
        let ts := _tag_stack p ++ [tag] in
        if mem tag MATHMODE_REQUIRED then
          let t := match _math_stack p with [] => tex p +:+ "$" | _ :: _ => tex p end in
          mk (valid p) ts (_math_stack p ++ [tag]) (t +:+ open) (data p)
        else
          mk (valid p) ts (_math_stack p) (tex p +:+ open) (data p)
    end in
  if mem tag SPECIALS
  then mk (valid p) (_tag_stack p) (_math_stack p) (tex p) (data p +:+ capitalize tag)
  else p.

Definition handle_endtag (tag : string) (p : state) : result state :=
  let p :=
    match pop_right (_tag_stack p) with
    | Ok (ts, top) =>
        mk (bool_decide (is_Some (lookup_tex top TEX_MAP))) ts (_math_stack p) (tex p) (data p)
    | Raise _ =>   (* except IndexError *)
        mk false (_tag_stack p) (_math_stack p) (tex p) (data p)
    end in
  let p :=
    match lookup_tex tag TEX_MAP with
    | Some _ => mk (valid p) (_tag_stack p) (_math_stack p) (tex p +:+ "}") (data p)
    | None => mk (valid p) (_tag_stack p) (_math_stack p) (tex p +:+ "</" +:+ tag +:+ ">") (data p)
    end in
  if mem tag MATHMODE_REQUIRED then
    '(ms, _) ← pop_right (_math_stack p);
    mret (mk (valid p) (_tag_stack p) ms
            (match ms with [] => tex p +:+ "$" | _ :: _ => tex p end) (data p))
  else mret p.

Definition handle_data (d : string) (p : state) : state :=
  mk (valid p) (_tag_stack p) (_math_stack p) (tex p +:+ d) (data p +:+ d).

Definition handle (e : event) (p : state) : result state :=
  match e with
  | StartTag tag attrs => mret (handle_starttag tag attrs p)
  | EndTag tag => handle_endtag tag p
  | StartEndTag tag attrs => handle_endtag tag (handle_starttag tag attrs p)
  | Data d => mret (handle_data d p)
  | Ignored => mret p
  end.

(** The handler calls of one [feed] (or of the flush in [close]), in order. *)
Fixpoint handle_all (es : list event) (p : state) : result state :=
  match es with
  | [] => mret p
  | e :: es' => p' ← handle e p; handle_all es' p'
  end.

(** [close]: unclosed tags invalidate the input; then [HTMLParser.close]
    flushes what [feed] kept buffered, calling handlers for it. *)
Definition close (flushed : list event) (p : state) : result state :=
  let p := match _tag_stack p with
           | [] => p
           | _ :: _ => mk false (_tag_stack p) (_math_stack p) (tex p) (data p)
           end in
  handle_all flushed p.

(** [parser.reset(); parser.feed(text); parser.close()], where the
    tokenizer turns [text] into the handler calls [fed] during [feed]
    and [flushed] during [close]. *)
Definition translate (fed flushed : list event) : result state :=
  p ← handle_all fed reset; close flushed p.

End GVParser.

(** ** Properly nested markup

    The inputs that none of the validity rules rejects: text, and
    elements over the tag vocabulary without attributes, each closed by
    its own end tag.  [tex_of] and [plain_of] state, after the specification's
    words, what the translator is to produce for them: a math-requiring
    tag is wrapped in math delimiters only where no other math-requiring
    tag is open around it. *)

Module Markup.
Import GVParser.

#[warnings="-register-all"] Inductive t :=
| Text (s : string)
| Elem (tag : string) (body : list t)
| Void (tag : string).   (* <tag/> *)

Definition join (l : list string) : string := foldr String.append "" l.

Fixpoint events (m : t) : list event :=
  match m with
  | Text s => [Data s]
  | Elem tag body => StartTag tag [] :: concat (map events body) ++ [EndTag tag]
  | Void tag => [StartEndTag tag []]
  end.

Fixpoint recognised (m : t) : bool :=
  match m with
  | Text _ => true
  | Elem tag body => mem tag (map fst TEX_MAP) && forallb recognised body
  | Void tag => mem tag (map fst TEX_MAP)
  end.

Definition open_of (tag : string) : string := default "" (lookup_tex tag TEX_MAP).
Definition dollar (depth : nat) : string :=
  match depth with 0 => "$" | S _ => "" end.

(** [depth]: how many math-requiring tags are open around [m]. *)
Fixpoint tex_of (depth : nat) (m : t) : string :=
  match m with
  | Text s => s
  | Elem tag body =>
      if mem tag MATHMODE_REQUIRED then
        dollar depth +:+ open_of tag +:+ join (map (tex_of (S depth)) body) +:+ "}"
          +:+ dollar depth
      else open_of tag +:+ join (map (tex_of depth) body) +:+ "}"
  | Void tag =>
      if mem tag MATHMODE_REQUIRED then
        dollar depth +:+ open_of tag +:+ "}" +:+ dollar depth
      else open_of tag +:+ "}"
  end.

Definition word_of (tag : string) : string :=
  if mem tag SPECIALS then capitalize tag else "".

Fixpoint plain_of (m : t) : string :=
  match m with
  | Text s => s
  | Elem tag body => word_of tag +:+ join (map plain_of body)
  | Void tag => word_of tag
  end.

Definition is_data (e : event) : bool :=
  match e with Data _ => true | _ => false end.

(** Induction over markup, with the hypothesis for every item of a body. *)
Section markup_induction.
Variable P : t -> Prop.
Hypothesis text_case : forall s, P (Text s).
Hypothesis elem_case : forall tag body, Forall P body -> P (Elem tag body).
Hypothesis void_case : forall tag, P (Void tag).

Fixpoint markup_nested_ind (m : t) : P m :=
  match m with
  | Text s => text_case s
  | Elem tag body =>
      elem_case tag body
        ((fix items (l : list t) : Forall P l :=
            match l with
            | [] => @List.Forall_nil _ P
            | x :: l' => @List.Forall_cons _ P x l' (markup_nested_ind x) (items l')
            end) body)
  | Void tag => void_case tag
  end.
End markup_induction.

End Markup.

(** ** Nodes *)

Module Node.

(** A reference to a [Node] object: its position in the store, in
    allocation order.  Python compares nodes by identity ([Node] defines
    no [__eq__]), which is equality of references here. *)
Abbreviation ref := nat (only parsing).

Record t := mk {
  label : option string;
  value : option string;
  children : list ref;
  parent : option ref
}.

Definition set_children (cs : list ref) (n : t) : t :=
  mk (label n) (value n) cs (parent n).
Definition set_parent (p : option ref) (n : t) : t :=
  mk (label n) (value n) (children n) p.
Definition set_label (l : option string) (n : t) : t :=
  mk l (value n) (children n) (parent n).
Definition set_value (v : option string) (n : t) : t :=
  mk (label n) v (children n) (parent n).

(** The nested record of [to_dict] and [from_dict]: a dict with the keys
    "label", "value" and "children".  A key can be missing (outer
    [None]); a present label or value is [None] or a string. *)
#[warnings="-register-all"] Inductive dict :=
| Dict (d_label d_value : option (option string)) (d_children : option (list dict)).

Definition d_label (d : dict) := let 'Dict l _ _ := d in l.
Definition d_value (d : dict) := let 'Dict _ v _ := d in v.
Definition d_children (d : dict) := let 'Dict _ _ c := d in c.

(** [data.get(key)] and [data.get("children", [])]. *)
Definition get_field (f : option (option string)) : option string :=
  match f with Some v => v | None => None end.
Definition get_children (c : option (list dict)) : list dict :=
  match c with Some l => l | None => [] end.

Section store.
Implicit Type h : list t.

Definition deref (r : ref) h : result t :=
  match h !! r with Some n => Ok n | None => Raise InvalidReference end.

(** An attribute assignment [r.f = ...]. *)
Definition assign (r : ref) (f : t -> t) h : result (list t) :=
  n ← deref r h; mret (<[r := f n]> h).

(** [Node(label, value)] *)
Definition new (label value : option string) h : ref * list t :=
  (length h, h ++ [mk label value [] None]).

Definition add_child (self c : ref) h : result (list t) :=
  cn ← deref c h;
  match parent cn with
  | Some _ => Raise AssertionError
  | None =>
      sn ← deref self h;
      h ← assign self (set_children (children sn ++ [c])) h;
      assign c (set_parent (Some self)) h
  end.

Definition delete (self : ref) h : result (list t) :=
  sn ← deref self h;
  match parent sn with
  | None => Raise AssertionError
  | Some p =>
      pn ← deref p h;
      cs ← remove self (children pn);
      assign p (set_children cs) h
  end.

(** [self.parent], read again by each statement of [add_parent]. *)
Definition parent_of (self : ref) h : result ref :=
  sn ← deref self h;
  match parent sn with Some p => mret p | None => Raise AttributeError end.

Definition add_parent (self node : ref) h : result (list t) :=
  sn ← deref self h;
  match parent sn with
  | None => Raise AssertionError
  | Some _ =>
      nn ← deref node h;
      match parent nn with
      | Some _ => Raise AssertionError
      | None =>
          p ← parent_of self h; pn ← deref p h;
          i ← index self (children pn);
          h ← assign node (set_parent (Some p)) h;
          p ← parent_of self h; pn ← deref p h;
          h ← assign p (set_children (base.delete i (children pn))) h;
          p ← parent_of self h; pn ← deref p h;
          h ← assign p (set_children (insert_at (Z.of_nat i) node (children pn))) h;
          h ← assign self (set_parent None) h;
          add_child node self h
      end
  end.

(** [to_dict]; [depth] is the interpreter's recursion limit. *)
Fixpoint to_dict (depth : nat) (self : ref) h : result dict :=
  match depth with
  | 0 => Raise RecursionError
  | S depth' =>
      n ← deref self h;
      cs ← mapM (fun c => to_dict depth' c h) (children n);
      mret (Dict (Some (label n)) (Some (value n)) (Some cs))
  end.

Fixpoint from_dict (data : dict) h : result (ref * list t) :=
  let 'Dict l v cs := data in
  let '(res, h) := new (get_field l) (get_field v) h in
  let each := fix each (cs : list dict) h : result (list t) :=
    match cs with
    | [] => mret h
    | c :: cs' =>
        '(cr, h) ← from_dict c h;
        h ← add_child res cr h;
        each cs' h
    end in
  h ← match cs with Some cs => each cs h | None => each [] h end;
  mret (res, h).

(** The [for] loop of [from_dict], as a function of its own. *)
Fixpoint each_child (res : ref) (cs : list dict) h : result (list t) :=
  match cs with
  | [] => mret h
  | c :: cs' =>
      '(cr, h) ← from_dict c h;
      h ← add_child res cr h;
      each_child res cs' h
  end.

End store.

(** [if x:] on a label or value: [None] and the empty string are false. *)
Definition truthy (s : option string) : bool :=
  match s with
  | None | Some EmptyString => false
  | Some (String _ _) => true
  end.

(** [__repr__]; [UNLABELLED] is the placeholder as gettext translates it. *)
Definition __repr__ (UNLABELLED : string) (self : t) : string :=
  let res := UNLABELLED in
  let res := if truthy (label self) then default "" (label self) else res in
  if truthy (value self) then res +:+ ": " +:+ default "" (value self) else res.

End Node.

(** ** Documents *)

Module Tree.

Definition __version__ : string := "1.0.0rc3".

Inductive Location := CHILD | PARENT | SIBLING.

Definition DEFAULT_MANIFEST : gmap string string := {[ "version" := __version__ ]}.

Record t := mk {
  dirty : bool;
  last_path : string;
  selection : option Node.ref;
  manifest : gmap string string;
  root : option Node.ref
}.

(** A zip archive with its two entries, each holding the JSON document
    that [json.dump] wrote (or nothing when the entry is missing). *)
Record archive := Zip {
  manifest_json : option (gmap string string);
  tree_json : option Node.dict
}.

Inductive file :=
| ZipFile (z : archive)
| NotAZip.

(** What the methods of a [Tree] can reach besides the tree itself: the
    node objects, the module's [_pasteboard] and the files. *)
Record world := World {
  store : list Node.t;
  _pasteboard : option Node.dict;
  files : gmap string file
}.

Definition with_store (h : list Node.t) (w : world) : world :=
  World h (_pasteboard w) (files w).

Definition is_empty (self : t) : bool :=
  match root self with None => true | Some _ => false end.

(** [a == b] on two attributes holding a node or [None]. *)
Definition same (a b : option Node.ref) : bool := bool_decide (a = b).

Definition _add (where_ : Location) (new : Node.ref) (self : t) (w : world)
    : result (t * world) :=
  '(self, w) ←
    (if is_empty self then
       mret (mk (dirty self) (last_path self) (selection self) (manifest self) (Some new), w)
     else match selection self with
     | None => Raise (SelectionError "No selection!")
     | Some sel =>
         match where_ with
         | CHILD =>
             h ← Node.add_child sel new (store w); mret (self, with_store h w)
         | PARENT =>
             if same (selection self) (root self) then
               h ← Node.add_child new sel (store w);
               mret (mk (dirty self) (last_path self) (selection self) (manifest self)
                       (Some new), with_store h w)
             else
               h ← Node.add_parent sel new (store w); mret (self, with_store h w)
         | SIBLING =>
             if same (selection self) (root self) then
               Raise (TreemendousError "The root cannot have siblings!")
             else
               p ← Node.parent_of sel (store w);
               h ← Node.add_child p new (store w); mret (self, with_store h w)
         end
     end);
  mret (mk true (last_path self) (Some new) (manifest self) (root self), w).

Definition none_if_empty (s : option string) : option string :=
  match s with Some EmptyString => None | _ => s end.

Definition add (where_ : Location) (label value : option string) (self : t) (w : world)
    : result (t * world) :=
  let '(new, h) := Node.new (none_if_empty label) (none_if_empty value) (store w) in
  _add where_ new self (with_store h w).

Definition set_dirty (self : t) : t :=
  mk true (last_path self) (selection self) (manifest self) (root self).

Definition edit (label value : option string) (self : t) (w : world)
    : result (t * world) :=
  let field (new : option string) (set : option string -> Node.t -> Node.t)
      (st : t * world) : result (t * world) :=
    match new with
    | None => mret st
    | Some _ =>
        match selection st.1 with
        | None => Raise AttributeError
        | Some sel =>
            h ← Node.assign sel (set (none_if_empty new)) (store st.2);
            mret (set_dirty st.1, with_store h st.2)
        end
    end in
  st ← field label Node.set_label (self, w);
  field value Node.set_value st.

Definition delete (self : t) (w : world) : result (t * world) :=
  match selection self with
  | None => Raise (SelectionError "No selection!")
  | Some n =>
      '(self, w) ←
        (if same (Some n) (root self) then
           mret (mk (dirty self) (last_path self) (selection self) (manifest self) None, w)
         else
           nn ← Node.deref n (store w);
           let self := mk (dirty self) (last_path self) (Node.parent nn) (manifest self)
                         (root self) in
           h ← Node.delete n (store w);
           mret (self, with_store h w));
      mret (set_dirty self, w)
  end.

(** [copy]; [depth] is the recursion limit [to_dict] runs under. *)
Definition copy (depth : nat) (self : t) (w : world) : result (t * world) :=
  match selection self with
  | None => Raise (SelectionError "No selection!")
  | Some sel =>
      d ← Node.to_dict depth sel (store w);
      mret (self, World (store w) (Some d) (files w))
  end.

(** [not _pasteboard]: unset, or a dict without keys. *)
Definition falsy (pb : option Node.dict) : bool :=
  match pb with
  | None | Some (Node.Dict None None None) => true
  | Some _ => false
  end.

Definition paste (where_ : Location) (self : t) (w : world) : result (t * world) :=
  match _pasteboard w with
  | Some d =>
      if falsy (_pasteboard w) then Raise (SelectionError "Pasteboard is empty!")
      else
        '(new, h) ← Node.from_dict d (store w);
        _add where_ new self (with_store h w)
  | None => Raise (SelectionError "Pasteboard is empty!")
  end.

Definition _shift (direction : Z) (self : t) (w : world) : result (t * world) :=
  match selection self with
  | None => Raise (SelectionError "No selection!")
  | Some sel =>
      if same (selection self) (root self) then
        Raise (TreemendousError "Cannot shift the root!")
      else
        p ← Node.parent_of sel (store w);
        pn ← Node.deref p (store w);
        old ← index sel (Node.children pn);
        let new := (Z.of_nat old + direction)%Z in
        '(rest, x) ← pop_at old (Node.children pn);
        h ← Node.assign p (Node.set_children (insert_at new x rest)) (store w);
        mret (set_dirty self, with_store h w)
  end.

Definition move_up : t -> world -> result (t * world) := _shift (-1).
Definition move_down : t -> world -> result (t * world) := _shift 1.

(** [zipfile.ZipFile(path)] for reading, and [zip.open(name)]. *)
Definition open_zip (path : string) (w : world) : result archive :=
  match files w !! path with
  | None => Raise FileNotFoundError
  | Some NotAZip => Raise BadZipFile
  | Some (ZipFile z) => Ok z
  end.
Definition open_entry {A} (entry : option A) : result A :=
  match entry with Some a => Ok a | None => Raise KeyError end.

(** The body of the [try] statement of [__init__]. *)
Definition read (path : string) (self : t) (w : world) : result (t * world) :=
  z ← open_zip path w;
  m ← open_entry (manifest_json z);
  let self := mk (dirty self) (last_path self) (selection self) (m ∪ manifest self)
                (root self) in
  my_major ← int (before_dot __version__);
  version ← open_entry (manifest self !! "version");
  their_major ← int (before_dot version);
  if (my_major <? their_major)%Z then
    Raise (IncompatibleFormatError (TooNew __version__ (pretty their_major +:+ ".0.0")))
  else
    d ← open_entry (tree_json z);
    '(r, h) ← Node.from_dict d (store w);
    mret (mk (dirty self) (last_path self) (selection self) (manifest self) (Some r),
          with_store h w).

(** [Tree(path)] *)
Definition __init__ (path : option string) (w : world) : result (t * world) :=
  let self := mk false (default "" path) None DEFAULT_MANIFEST None in
  match path with
  | None | Some EmptyString => mret (self, w)
  | Some path =>
      match read path self w with
      | Raise KeyError | Raise BadZipFile =>
          Raise (IncompatibleFormatError Unreadable)
      | r => r
      end
  end.

(** The path [save] writes to: its argument, or else [last_path]. *)
Definition target_path (path : option string) (self : t) : result string :=
  match path with
  | Some (String _ _ as path) => mret path
  | _ => match last_path self with
         | EmptyString => Raise (SaveError "No last path")
         | path => mret path
         end
  end.

Section save.
(** Writing a [.gv] or [.png] file goes through the [graphviz]
    package ([to_graphviz], then [g.save] or [g.render]). *)
Variable graphviz_write : string -> t -> world -> result (t * world).

(** [save]; [depth] is the recursion limit [to_dict] runs under. *)
Definition save (depth : nat) (path : option string) (self : t) (w : world)
    : result (t * world) :=
  path ← target_path path self;
  if endswith path ".gv" then graphviz_write path self w
  else if endswith path ".png" then graphviz_write path self w
  else
    match root self with
    | None => Raise AttributeError
    | Some r =>
        d ← Node.to_dict depth r (store w);
        let z := Zip (Some (manifest self)) (Some d) in
        mret (mk false path (selection self) (manifest self) (root self),
              World (store w) (_pasteboard w) (<[path := ZipFile z]> (files w)))
    end.
End save.

(** The [notes] property: [manifest.get("notes", "")] and its setter. *)
Definition notes (self : t) : string := default "" (manifest self !! "notes").

Definition set_notes (new : string) (self : t) : t :=
  mk true (last_path self) (selection self) (<["notes" := new]> (manifest self)) (root self).

(** The manifest entry of the container stored under [path], if any. *)
Definition stored_manifest (path : string) (w : world) : option (gmap string string) :=
  match files w !! path with
  | Some (ZipFile z) => manifest_json z
  | _ => None
  end.

End Tree.

(** ** Identifiers of the diagram export *)

Module Graphviz.

(** The [while] loop of [_fresh_name]: [res] is the candidate, [num] the
    last number tried; each test of the loop condition spends one unit
    of [fuel]. *)
Fixpoint until_fresh (fuel : nat) (name : string) (num : nat) (res : string)
    (names : gset string) : option string :=
  match fuel with
  | 0 => None
  | S fuel' =>
      if decide (res ∈ names)
      then until_fresh fuel' name (S num) (name +:+ pretty (S num)) names
      else Some res
  end.

(** [_fresh_name(name, names)]: the name returned and the set [names]
    after [names.add(res)]. *)
Definition _fresh_name (fuel : nat) (name : string) (names : gset string)
    : option (string * gset string) :=
  let name := if decide (name = "") then "node" else name in
  res ← until_fresh fuel name 1 name names;
  Some (res, {[ res ]} ∪ names).

End Graphviz.

(** ** Counting tags *)

Module Count.
Import GVParser.

(** Start tags that [handle_starttag] pushes, and end tags, which pop. *)
Definition pushes (e : event) : nat :=
  match e with
  | StartTag tag _ | StartEndTag tag _ =>
      if bool_decide (is_Some (lookup_tex tag TEX_MAP)) then 1 else 0
  | _ => 0
  end.

Definition pops (e : event) : nat :=
  match e with
  | EndTag _ | StartEndTag _ _ => 1
  | _ => 0
  end.


(** What an event adds to the [data] accumulator. *)
Definition data_of (e : event) : string :=
  match e with
  | StartTag tag _ | StartEndTag tag _ => if mem tag SPECIALS then capitalize tag else ""
  | Data d => d
  | _ => ""
  end.

End Count.

(** ** Stored trees and their records *)

Module Encoding.
Import Node.

(** [encodes h r d]: in the store [h] the node [r] is the root of a
    finite tree, and [d] is the record of that tree: label, value and
    the records of the children, in order. *)
#[warnings="-register-all"] Inductive encodes (h : list Node.t) : ref -> dict -> Prop :=
| encodes_node r n ds :
    h !! r = Some n ->
    Forall2 (encodes h) (children n) ds ->
    encodes h r (Dict (Some (label n)) (Some (value n)) (Some ds)).

(** Two stored trees with the same labels and values on nodes in the
    same positions; references and parents are not compared. *)
#[warnings="-register-all"] Inductive same_tree (h h' : list Node.t) : ref -> ref -> Prop :=
| same_node r r' n n' :
    h !! r = Some n -> h' !! r' = Some n' ->
    label n = label n' -> value n = value n' ->
    Forall2 (same_tree h h') (children n) (children n') ->
    same_tree h h' r r'.

(** Induction over records, with the hypothesis for every child. *)
Section dict_induction.
Variable P : dict -> Prop.
Hypothesis dict_case :
  forall l v cs, Forall P (get_children cs) -> P (Dict l v cs).

Fixpoint dict_nested_ind (d : dict) : P d :=
  match d with
  | Dict l v cs =>
      dict_case l v cs
        (match cs return Forall P (get_children cs) with
         | Some cs =>
             (fix items (l : list dict) : Forall P l :=
                match l with
                | [] => @List.Forall_nil _ P
                | x :: l' => @List.Forall_cons _ P x l' (dict_nested_ind x) (items l')
                end) cs
         | None => @List.Forall_nil _ P
         end)
  end.
End dict_induction.

(** Number of nodes and number of levels of a record. *)
Fixpoint size (d : dict) : nat :=
  let 'Dict _ _ cs := d in
  S (match cs with Some cs => sum_list (map size cs) | None => 0 end).

Fixpoint height (d : dict) : nat :=
  let 'Dict _ _ cs := d in
  S (match cs with Some cs => max_list (map height cs) | None => 0 end).

(** The record with every missing key filled in with what [get] returns
    for it. *)
Fixpoint norm (d : dict) : dict :=
  let 'Dict l v cs := d in
  Dict (Some (get_field l)) (Some (get_field v))
       (Some (match cs with Some cs => map norm cs | None => [] end)).

(** Where [from_dict] puts the nodes: the root at [base], then the
    subtree of each child in turn. *)
Fixpoint child_refs (b : ref) (cs : list dict) : list ref :=
  match cs with
  | [] => []
  | c :: cs' => b :: child_refs (b + size c) cs'
  end.

Fixpoint layout (base : ref) (par : option ref) (d : dict) : list Node.t :=
  let 'Dict l v cs := d in
  let subtrees := fix subtrees (b : ref) (cs : list dict) : list Node.t :=
    match cs with
    | [] => []
    | c :: cs' => layout b (Some base) c ++ subtrees (b + size c) cs'
    end in
  match cs with
  | Some cs =>
      mk (get_field l) (get_field v) (child_refs (S base) cs) par :: subtrees (S base) cs
  | None => [mk (get_field l) (get_field v) [] par]
  end.

Fixpoint layouts (parent b : ref) (cs : list dict) : list Node.t :=
  match cs with
  | [] => []
  | c :: cs' => layout b (Some parent) c ++ layouts parent (b + size c) cs'
  end.

(** Children know their parent: whatever a node lists as a child is a
    node of the store whose parent reference is the listing node. *)
Definition consistent (h : list Node.t) : Prop :=
  forall i n c, h !! i = Some n -> c ∈ children n ->
    exists cn, h !! c = Some cn /\ parent cn = Some i.

End Encoding.

(** * Properties *)

(** ** Strings and stacks *)

Section python_lists.
Context {A : Type}.

Lemma pop_right_snoc (l : list A) (x : A) : pop_right (l ++ [x]) = Ok (l, x).
Proof.
  induction l as [|y l IH]; [reflexivity|].
  cbn [app pop_right]. rewrite IH.
  destruct (l ++ [x]) eqn:E; [by destruct l|reflexivity].
Qed.

Lemma pop_right_nil_iff (l : list A) : pop_right l = Raise IndexError ↔ l = [].
Proof.
  split; [|by intros ->].
  induction l as [|y l IH] using rev_ind; [done|].
  by rewrite pop_right_snoc.
Qed.
End python_lists.

Lemma append_cons (c : ascii) (s t : string) : String c s +:+ t = String c (s +:+ t).
Proof. reflexivity. Qed.

Lemma append_nil_r (s : string) : s +:+ "" = s.
Proof. induction s as [|c s IH]; [reflexivity|]. by rewrite append_cons, IH. Qed.

Lemma append_assoc (a b c : string) : (a +:+ b) +:+ c = a +:+ b +:+ c.
Proof. induction a as [|x a IH]; [reflexivity|]. by rewrite !append_cons, IH. Qed.

(** ** The markup translator *)

Section translator.
Import GVParser Markup.

Lemma handle_all_app (es1 es2 : list event) (p : state) :
  handle_all (es1 ++ es2) p = p' ← handle_all es1 p; handle_all es2 p'.
Proof.
  revert p; induction es1 as [|e es1 IH]; intros p; [reflexivity|].
  cbn [app handle_all]. destruct (handle e p) as [p'|x]; [apply IH|reflexivity].
Qed.


Lemma mem_keys_lookup (tag : string) :
  mem tag (map fst TEX_MAP) = true → ∃ o, lookup_tex tag TEX_MAP = Some o.
Proof.
  unfold mem. generalize TEX_MAP. intros m. induction m as [|[k v] m IH]; [done|].
  cbn [map fst existsb lookup_tex]. rewrite String.eqb_sym.
  destruct (String.eqb k tag); [eauto|apply IH].
Qed.

Lemma handle_starttag_recognised (tag o : string) (p : state) :
  lookup_tex tag TEX_MAP = Some o →
  handle_starttag tag [] p =
    mk (valid p) (_tag_stack p ++ [tag])
       (if mem tag MATHMODE_REQUIRED then _math_stack p ++ [tag] else _math_stack p)
       (tex p +:+ (if mem tag MATHMODE_REQUIRED
                   then dollar (length (_math_stack p)) +:+ o else o))
       (data p +:+ word_of tag).
Proof.
  intros Ho. unfold handle_starttag, word_of. rewrite Ho.
  destruct (mem tag MATHMODE_REQUIRED), (mem tag SPECIALS); cbn [valid _tag_stack _math_stack tex data];
    rewrite ?append_nil_r; try (by destruct p);
    destruct (_math_stack p); cbn [length dollar];
    first [by rewrite append_assoc | reflexivity].
Qed.

Lemma handle_endtag_matching (tag o : string) (ts ms : list string) (v : bool)
    (x d : string) :
  lookup_tex tag TEX_MAP = Some o →
  handle_endtag tag
    (mk v (ts ++ [tag]) (if mem tag MATHMODE_REQUIRED then ms ++ [tag] else ms) x d) =
  Ok (mk true ts ms
        (x +:+ "}" +:+ (if mem tag MATHMODE_REQUIRED then dollar (length ms) else "")) d).
Proof.
  intros Ho. unfold handle_endtag. cbn [_tag_stack _math_stack tex data valid].
  rewrite pop_right_snoc, Ho. cbn [_tag_stack _math_stack tex data valid].
  rewrite bool_decide_eq_true_2 by eauto.
  destruct (mem tag MATHMODE_REQUIRED); cbn [_tag_stack _math_stack tex data valid].
  - rewrite pop_right_snoc. simpl.
    destruct ms; first [by rewrite append_assoc | reflexivity].
  - reflexivity.
Qed.

Lemma join_cons (x : string) (l : list string) : join (x :: l) = x +:+ join l.
Proof. reflexivity. Qed.

(** Feeding the events of properly nested markup appends its rendering,
    at the current math depth, and restores both stacks. *)
Lemma handle_all_events (m : Markup.t) :
  ∀ p, recognised m = true → valid p = true →
    handle_all (events m) p =
    Ok (mk true (_tag_stack p) (_math_stack p)
          (tex p +:+ tex_of (length (_math_stack p)) m) (data p +:+ plain_of m)).
Proof.
  induction m as [s|tag body IH|tag] using Markup.markup_nested_ind; intros p Hrec Hv.
  - destruct p; simpl in *; by subst.
  - cbn [recognised] in Hrec. apply andb_prop in Hrec as [Htag Hbody].
    destruct (mem_keys_lookup _ Htag) as [o Ho].
    cbn [events handle_all handle]. change (mret ?x ≫= ?f) with (f x).
    rewrite (handle_starttag_recognised _ _ _ Ho), handle_all_app.
    set (p1 := mk _ _ _ _ _).
    assert (∀ q, valid q = true →
      handle_all (concat (map events body)) q =
      Ok (mk true (_tag_stack q) (_math_stack q)
            (tex q +:+ join (map (tex_of (length (_math_stack q))) body))
            (data q +:+ join (map plain_of body)))) as Hall.
    { clear p1. induction body as [|m body IHb]; intros q Hq.
      - destruct q; simpl in *; subst. by rewrite !append_nil_r.
      - apply Forall_cons in IH as [IHm IH]. cbn [forallb] in Hbody.
        apply andb_prop in Hbody as [Hm Hbody].
        cbn [map concat]. rewrite handle_all_app, (IHm q Hm Hq).
        change (Ok ?x ≫= ?f) with (f x). rewrite IHb by done.
        cbn [valid _tag_stack _math_stack tex data].
        by rewrite !join_cons, !append_assoc. }
    rewrite Hall by (subst p1; by cbn).
    change (Ok ?x ≫= ?f) with (f x). subst p1.
    cbn [valid _tag_stack _math_stack tex data handle_all handle].
    rewrite (handle_endtag_matching _ _ _ _ _ _ _ Ho).
    change (Ok ?x ≫= ?f) with (f x). cbn [handle_all]. unfold mret, result_ret.
    do 2 f_equal.
    + cbn [tex_of]. unfold open_of. rewrite Ho. cbn [default].
      destruct (mem tag MATHMODE_REQUIRED).
      * rewrite length_app, Nat.add_1_r. by rewrite !append_assoc.
      * by rewrite !append_assoc, append_nil_r.
    + cbn [plain_of]. by rewrite append_assoc.
  - cbn [recognised] in Hrec. destruct (mem_keys_lookup _ Hrec) as [o Ho].
    cbn [events handle_all handle].
    rewrite (handle_starttag_recognised _ _ _ Ho).
    rewrite (handle_endtag_matching _ _ _ _ _ _ _ Ho).
    change (Ok ?x ≫= ?f) with (f x). cbn [handle_all]. unfold mret, result_ret.
    do 2 f_equal. cbn [tex_of]. unfold open_of. rewrite Ho. cbn [default].
    destruct (mem tag MATHMODE_REQUIRED); by rewrite ?append_assoc, ?append_nil_r.
Qed.

Lemma handle_all_markup (ms : list Markup.t) :
  ∀ p, forallb recognised ms = true → valid p = true →
    handle_all (concat (map events ms)) p =
    Ok (mk true (_tag_stack p) (_math_stack p)
          (tex p +:+ join (map (tex_of (length (_math_stack p))) ms))
          (data p +:+ join (map plain_of ms))).
Proof.
  induction ms as [|m ms IH]; intros p Hrec Hv.
  - destruct p; simpl in *; subst. by rewrite !append_nil_r.
  - cbn [forallb] in Hrec. apply andb_prop in Hrec as [Hm Hrec].
    cbn [map concat]. rewrite handle_all_app, (handle_all_events m p Hm Hv).
    change (Ok ?x ≫= ?f) with (f x). rewrite IH by done.
    cbn [valid _tag_stack _math_stack tex data].
    by rewrite !join_cons, !append_assoc.
Qed.

(** Text events touch neither the stacks nor the flag. *)
Lemma handle_all_data (es : list event) (p : state) :
  forallb is_data es = true →
  ∃ x d, ∀ v, handle_all es (mk v (_tag_stack p) (_math_stack p) (tex p) (data p)) =
              Ok (mk v (_tag_stack p) (_math_stack p) (tex p +:+ x) (data p +:+ d)).
Proof.
  revert p. induction es as [|e es IH]; intros p Hes.
  - exists "", "". intros v. by rewrite !append_nil_r.
  - cbn [forallb] in Hes. apply andb_prop in Hes as [He Hes].
    destruct e as [| | |s|]; try done.
    destruct (IH (handle_data s p) Hes) as (x & d & H).
    exists (s +:+ x), (s +:+ d). intros v. specialize (H v).
    cbn [handle_all handle]. change (mret ?x ≫= ?f) with (f x).
    unfold handle_data in *. cbn [valid _tag_stack _math_stack tex data] in *.
    by rewrite H, !append_assoc.
Qed.

(** C7. For properly nested markup over the tag vocabulary the
    translator succeeds, reports the input valid and produces [tex_of 0]:
    the opening math delimiter is emitted once, where a math-requiring
    tag (sup, sub, null, bar) opens while no other is open, and the
    closing delimiter once, where that tag closes; math-requiring tags
    nested inside share this one pair.  This holds however the
    tokenizer divides the text events between [feed] and [close]. *)
Theorem translate_shares_math_delimiters (ms : list Markup.t)
    (fed flushed : list event) :
  forallb recognised ms = true →
  fed ++ flushed = concat (map events ms) →
  forallb is_data flushed = true →
  translate fed flushed =
    Ok (mk true [] [] (join (map (tex_of 0) ms)) (join (map plain_of ms))).
Proof.
  intros Hrec Hsplit Hdata.
  pose proof (handle_all_markup ms reset Hrec eq_refl) as H.
  rewrite <- Hsplit, handle_all_app in H. unfold translate.
  destruct (handle_all fed reset) as [p1|e]; [|done].
  change (Ok p1 ≫= ?f) with (f p1) in *. cbv beta in *.
  destruct (handle_all_data flushed p1 Hdata) as (x & d & Hd).
  pose proof (Hd (valid p1)) as H1.
  replace (mk (valid p1) _ _ _ _) with p1 in H1 by (by destruct p1).
  rewrite H1 in H. injection H as Hv Hts Hms Hx Hd'.
  unfold close. rewrite Hts. rewrite H1. cbn [reset _tag_stack _math_stack tex data] in *.
  by rewrite Hv, Hts, Hms, Hx, Hd'.
Qed.

Lemma translate_shares_math_delimiters_witness :
  translate
    [StartTag "sup" []; Data "a"; StartTag "sub" []; Data "b"; EndTag "sub";
     EndTag "sup"; Data "T"; StartEndTag "bar" []; Data "&"] [Data "c"] =
  Ok (mk true [] [] "$^{a_{b}}$T$^{\prime}$&c" "abTBar&c").
Proof.
  exact (translate_shares_math_delimiters
           [Elem "sup" [Text "a"; Elem "sub" [Text "b"]]; Text "T"; Void "bar";
            Text "&"; Text "c"]
           [StartTag "sup" []; Data "a"; StartTag "sub" []; Data "b"; EndTag "sub";
            EndTag "sup"; Data "T"; StartEndTag "bar" []; Data "&"]
           [Data "c"] eq_refl eq_refl eq_refl).
Defined.

(** C2. The claim is that the translator never raises.  On the input
    [</sup>], a single end tag of a math-requiring tag that was never
    opened, the first [pop] of [handle_endtag] is guarded by
    [except IndexError] but the [pop] of the math stack is not, and the
    [IndexError] reaches the caller of [feed]. *)
Theorem translate_unopened_math_end_tag_raises :
  translate [EndTag "sup"] [] = Raise IndexError.
Proof. reflexivity. Qed.

(** C5. The claim is that an end tag that does not match the open tag
    on top of the stack leaves the input invalid.  On [<b></i>] the end
    tag [i] arrives while [b] is on top; [handle_endtag] only asks
    whether the popped tag is in [TEX_MAP], which every pushed tag is,
    so it sets the flag to true and the input ends valid. *)
Theorem translate_mismatched_end_tag_valid :
  (∃ p, handle_all [StartTag "b" []] reset = Ok p ∧ last (_tag_stack p) = Some "b") ∧
  translate [StartTag "b" []; EndTag "i"] [] = Ok (mk true [] [] "\textbf{}" "").
Proof. split; [eexists; split; reflexivity|reflexivity]. Qed.

End translator.

(** ** Python's list methods *)

Section python_list_methods.
Context `{EqDecision A}.
Implicit Types (x : A) (pre post : list A).

Lemma index_middle x pre post :
  x ∉ pre → index x (pre ++ x :: post) = Ok (length pre).
Proof.
  induction pre as [|y pre IH]; intros Hx; cbn [app index length].
  - by rewrite decide_True.
  - apply not_elem_of_cons in Hx as [Hxy Hx].
    rewrite decide_False by done. by rewrite IH.
Qed.

Lemma remove_middle x pre post :
  x ∉ pre → remove x (pre ++ x :: post) = Ok (pre ++ post).
Proof.
  induction pre as [|y pre IH]; intros Hx; cbn [app remove].
  - by rewrite decide_True.
  - apply not_elem_of_cons in Hx as [Hxy Hx].
    rewrite decide_False by done. by rewrite IH.
Qed.

Lemma pop_at_middle x pre post :
  pop_at (length pre) (pre ++ x :: post) = Ok (pre ++ post, x).
Proof. unfold pop_at. by rewrite list_lookup_middle, delete_middle. Qed.

Lemma insert_at_middle x pre post :
  insert_at (Z.of_nat (length pre)) x (pre ++ post) = pre ++ x :: post.
Proof.
  unfold insert_at. rewrite length_app.
  destruct (Z.ltb_spec (Z.of_nat (length pre)) 0) as [?|_]; [lia|].
  rewrite Z.min_l, Nat2Z.id by lia.
  by rewrite take_app_length, drop_app_length.
Qed.

(** An index at or past the end appends. *)
Lemma insert_at_end x (l : list A) (i : Z) :
  (Z.of_nat (length l) ≤ i)%Z → insert_at i x l = l ++ [x].
Proof.
  intros Hi. unfold insert_at.
  destruct (Z.ltb_spec i 0) as [?|_]; [lia|].
  rewrite Z.min_r, Nat2Z.id by lia.
  by rewrite firstn_all, drop_all.
Qed.

(** Index -1 is the position before the last item. *)
Lemma insert_at_minus_one x y (l : list A) :
  insert_at (-1) x (l ++ [y]) = l ++ [x; y].
Proof.
  unfold insert_at. rewrite length_app. cbn [length].
  change (-1 <? 0)%Z with true. cbv iota.
  replace (Z.to_nat (Z.max 0 (-1 + Z.of_nat (length l + 1)))) with (length l) by lia.
  by rewrite take_app_length, drop_app_length.
Qed.
End python_list_methods.

(** ** Node operations on the store *)

Section node_operations.
Import Node.
Implicit Types (h : list Node.t) (self node p : ref).

Lemma deref_Some h r n : h !! r = Some n → deref r h = Ok n.
Proof. unfold deref. by intros ->. Qed.

Lemma assign_Some h r n f : h !! r = Some n → assign r f h = Ok (<[r := f n]> h).
Proof. unfold assign. intros H. by rewrite (deref_Some _ _ _ H). Qed.

Lemma parent_of_Some h r n p :
  h !! r = Some n → parent n = Some p → parent_of r h = Ok p.
Proof. unfold parent_of. intros H Hp. by rewrite (deref_Some _ _ _ H); cbn; rewrite Hp. Qed.

Lemma lookup_insert_same h r n n' : h !! r = Some n → <[r := n']> h !! r = Some n'.
Proof. intros H. apply list_lookup_insert_eq. by eapply lookup_lt_Some. Qed.

Lemma set_children_twice cs cs' (n : Node.t) :
  set_children cs (set_children cs' n) = set_children cs n.
Proof. reflexivity. Qed.

(** C4 (amended). [delete] rejects a node without parent.  For a node
    that occurs in the children of its parent it removes that
    occurrence (the first one) and keeps the order of the other
    children; no other object changes; in particular the node's own
    parent reference is left as it was and still names the former
    parent. *)
Theorem delete_unlinks h self sn :
  h !! self = Some sn →
  (parent sn = None → delete self h = Raise AssertionError) ∧
  (∀ p pn pre post,
     parent sn = Some p → h !! p = Some pn →
     children pn = pre ++ self :: post → self ∉ pre →
     ∃ h', delete self h = Ok h' ∧
           h' !! p = Some (set_children (pre ++ post) pn) ∧
           (∀ r, r ≠ p → h' !! r = h !! r) ∧
           parent <$> h' !! self = Some (Some p)).
Proof.
  intros Hs. split.
  - intros Hp. unfold delete. rewrite (deref_Some _ _ _ Hs). cbn. by rewrite Hp.
  - intros p pn pre post Hp Hpn Hcs Hpre.
    exists (<[p := set_children (pre ++ post) pn]> h). split; [|split; [|split]].
    + unfold delete. rewrite (deref_Some _ _ _ Hs). cbn. rewrite Hp.
      rewrite (deref_Some _ _ _ Hpn). cbn. rewrite Hcs, remove_middle by done. cbn.
      apply (assign_Some _ _ _ _ Hpn).
    + by eapply lookup_insert_same.
    + intros r Hr. by apply list_lookup_insert_ne.
    + destruct (decide (self = p)) as [->|Hne].
      * rewrite (lookup_insert_same _ _ _ _ Hpn). cbn.
        assert (sn = pn) as -> by congruence. by rewrite Hp.
      * rewrite list_lookup_insert_ne by done. rewrite Hs. cbn. by rewrite Hp.
Qed.

Lemma delete_unlinks_witness :
  delete 2 [ mk (Some "DP") None [1; 2] None;
             mk (Some "D") (Some "the") [] (Some 0);
             mk (Some "NP") None [3] (Some 0);
             mk (Some "N") (Some "cactus") [] (Some 2) ]
  = Ok [ mk (Some "DP") None [1] None;
         mk (Some "D") (Some "the") [] (Some 0);
         mk (Some "NP") None [3] (Some 0);
         mk (Some "N") (Some "cactus") [] (Some 2) ].
Proof.
  destruct (delete_unlinks
    [ mk (Some "DP") None [1; 2] None; mk (Some "D") (Some "the") [] (Some 0);
      mk (Some "NP") None [3] (Some 0); mk (Some "N") (Some "cactus") [] (Some 2) ]
    2 (mk (Some "NP") None [3] (Some 0)) eq_refl) as [_ H].
  destruct (H 0 (mk (Some "DP") None [1; 2] None) [1] [] eq_refl eq_refl eq_refl)
    as (h' & Hd & _).
  - by intros [[=]|[]%elem_of_nil]%elem_of_cons.
  - reflexivity.
Defined.

(** C4, as stated, fails: after [np.delete()] in the tree of
    [test_delete] the node is gone from the children of [dp], but its
    parent reference is not cleared. *)
Lemma delete_leaves_parent_reference :
  ∃ h', delete 2 [ mk (Some "DP") None [1; 2] None;
                    mk (Some "D") (Some "the") [] (Some 0);
                    mk (Some "NP") None [3] (Some 0);
                    mk (Some "N") (Some "cactus") [] (Some 2) ] = Ok h' ∧
        children <$> h' !! 0 = Some [1] ∧
        parent <$> h' !! 2 = Some (Some 0) ∧
        parent <$> h' !! 2 ≠ Some None.
Proof. eexists. by repeat split. Qed.

(** C8 (amended). [add_parent] fails with an [AssertionError] when the
    node has no parent or the new parent already has one.  Otherwise,
    for a node that is child number [length pre] of [p] and a new parent
    other than [p], the new parent takes that place among the children
    of [p], the other children keep their order, and the node is
    appended to the children the new parent already has (so it is the
    only child exactly when the new parent had none). *)
Theorem add_parent_splices h self node sn nn :
  h !! self = Some sn → h !! node = Some nn →
  (parent sn = None ∨ is_Some (parent nn) → add_parent self node h = Raise AssertionError) ∧
  (∀ p pn pre post,
     parent sn = Some p → parent nn = None → h !! p = Some pn →
     children pn = pre ++ self :: post → self ∉ pre → self ≠ p → node ≠ p →
     ∃ h', add_parent self node h = Ok h' ∧
           h' !! p = Some (set_children (pre ++ node :: post) pn) ∧
           h' !! node = Some (mk (label nn) (value nn) (children nn ++ [self]) (Some p)) ∧
           h' !! self = Some (set_parent (Some node) sn) ∧
           (∀ r, r ≠ p → r ≠ node → r ≠ self → h' !! r = h !! r)).
Proof.
  intros Hs Hn. split.
  - intros Hfail. unfold add_parent. rewrite (deref_Some _ _ _ Hs). cbn.
    destruct (parent sn); [|done]. rewrite (deref_Some _ _ _ Hn). cbn.
    destruct Hfail as [?|[? Hq]]; [done|]. by rewrite Hq.
  - intros p pn pre post Hsp Hnp Hp Hcs Hpre Hsp' Hnp'.
    assert (node ≠ self) as Hns by (intros ->; congruence).
    unfold add_parent.
    rewrite (deref_Some _ _ _ Hs). cbn. rewrite Hsp.
    rewrite (deref_Some _ _ _ Hn). cbn. rewrite Hnp.
    rewrite (parent_of_Some _ _ _ _ Hs Hsp). cbn.
    rewrite (deref_Some _ _ _ Hp). cbn.
    rewrite Hcs, index_middle by done. cbn.
    rewrite (assign_Some _ _ _ _ Hn). cbn.
    set (h1 := <[node := _]> h).
    assert (h1 !! self = Some sn) as Hs1 by (by subst h1; rewrite list_lookup_insert_ne).
    assert (h1 !! p = Some pn) as Hp1 by (by subst h1; rewrite list_lookup_insert_ne).
    rewrite (parent_of_Some _ _ _ _ Hs1 Hsp). cbn.
    rewrite (deref_Some _ _ _ Hp1). cbn.
    rewrite (assign_Some _ _ _ _ Hp1). cbn.
    rewrite Hcs, delete_middle.
    set (h2 := <[p := _]> h1).
    assert (h2 !! self = Some sn) as Hs2 by (by subst h2; rewrite list_lookup_insert_ne).
    assert (h2 !! p = Some (set_children (pre ++ post) pn)) as Hp2
      by (subst h2; by eapply lookup_insert_same).
    rewrite (parent_of_Some _ _ _ _ Hs2 Hsp). cbn.
    rewrite (deref_Some _ _ _ Hp2). cbn.
    rewrite (assign_Some _ _ _ _ Hp2). cbn.
    rewrite insert_at_middle, set_children_twice.
    set (h3 := <[p := _]> h2).
    assert (h3 !! self = Some sn) as Hs3 by (by subst h3; rewrite list_lookup_insert_ne).
    rewrite (assign_Some _ _ _ _ Hs3). cbn.
    set (h4 := <[self := _]> h3).
    assert (h4 !! self = Some (set_parent None sn)) as Hs4
      by (subst h4; by eapply lookup_insert_same).
    assert (h4 !! node = Some (set_parent (Some p) nn)) as Hn4.
    { subst h4 h3 h2. rewrite !list_lookup_insert_ne by done.
      subst h1. by eapply lookup_insert_same. }
    unfold add_child.
    rewrite (deref_Some _ _ _ Hs4). cbn.
    rewrite (deref_Some _ _ _ Hn4). cbn.
    rewrite (assign_Some _ _ _ _ Hn4). cbn.
    set (h5 := <[node := _]> h4).
    assert (h5 !! self = Some (set_parent None sn)) as Hs5
      by (by subst h5; rewrite list_lookup_insert_ne).
    rewrite (assign_Some _ _ _ _ Hs5).
    eexists. split; [reflexivity|]. split; [|split; [|split]].
    + rewrite list_lookup_insert_ne by done. subst h5.
      rewrite list_lookup_insert_ne by done. subst h4.
      rewrite list_lookup_insert_ne by done. subst h3.
      by eapply lookup_insert_same.
    + rewrite list_lookup_insert_ne by done. subst h5.
      by erewrite lookup_insert_same.
    + by erewrite lookup_insert_same.
    + intros r ? ? ?. subst h5 h4 h3 h2 h1. by rewrite !list_lookup_insert_ne.
Qed.

Lemma add_parent_splices_witness :
  ∃ h', add_parent 2 3 [ mk (Some "DP") None [1; 2] None;
                          mk (Some "D") (Some "the") [] (Some 0);
                          mk (Some "N") (Some "cactus") [] (Some 0);
                          mk (Some "NP") None [] None ] = Ok h' ∧
        h' !! 0 = Some (mk (Some "DP") None [1; 3] None) ∧
        h' !! 3 = Some (mk (Some "NP") None [2] (Some 0)) ∧
        h' !! 2 = Some (mk (Some "N") (Some "cactus") [] (Some 3)) ∧
        (∀ r, r ≠ 0 → r ≠ 3 → r ≠ 2 →
           h' !! r = [ mk (Some "DP") None [1; 2] None;
                       mk (Some "D") (Some "the") [] (Some 0);
                       mk (Some "N") (Some "cactus") [] (Some 0);
                       mk (Some "NP") None [] None ] !! r).
Proof.
  apply (proj2 (add_parent_splices
                  [ mk (Some "DP") None [1; 2] None;
                    mk (Some "D") (Some "the") [] (Some 0);
                    mk (Some "N") (Some "cactus") [] (Some 0);
                    mk (Some "NP") None [] None ]
                  2 3 (mk (Some "N") (Some "cactus") [] (Some 0))
                  (mk (Some "NP") None [] None) eq_refl eq_refl)
               0 (mk (Some "DP") None [1; 2] None) [1] []);
    try reflexivity; try lia.
  by intros [[=]|[]%elem_of_nil]%elem_of_cons.
Defined.

(** C8, as stated, fails for a new parent that has children of its
    own (as a pasted subtree has): the node is appended after them
    and is not the only child. *)
Lemma add_parent_keeps_other_children :
  ∃ h', add_parent 1 2 [ mk (Some "P") None [1] None;
                          mk (Some "N") None [] (Some 0);
                          mk (Some "Q") None [3] None;
                          mk (Some "C") None [] (Some 2) ] = Ok h' ∧
        children <$> h' !! 0 = Some [2] ∧
        children <$> h' !! 2 = Some [3; 1] ∧
        children <$> h' !! 2 ≠ Some [1].
Proof. eexists. by repeat split. Qed.

End node_operations.

(** ** Documents *)

Section documents.
Import Node Tree.
Implicit Types (self : Tree.t) (w : world).

(** What [_shift] does to the children of the selection's parent. *)
Lemma _shift_children direction self w sel sn p pn pre post :
  selection self = Some sel → root self ≠ Some sel →
  store w !! sel = Some sn → parent sn = Some p → store w !! p = Some pn →
  children pn = pre ++ sel :: post → sel ∉ pre →
  _shift direction self w =
    Ok (set_dirty self,
        with_store
          (<[p := set_children
                    (insert_at (Z.of_nat (length pre) + direction) sel (pre ++ post)) pn]>
             (store w)) w).
Proof.
  intros Hsel Hroot Hs Hsp Hp Hcs Hpre. unfold _shift, same. rewrite Hsel.
  rewrite bool_decide_eq_false_2 by congruence.
  rewrite (parent_of_Some _ _ _ _ Hs Hsp). cbn.
  rewrite (deref_Some _ _ _ Hp). cbn.
  rewrite Hcs, index_middle by done. cbn.
  rewrite pop_at_middle. cbn.
  by rewrite (assign_Some _ _ _ _ Hp).
Qed.

(** Away from the ends the selection changes place with its neighbour. *)
Lemma move_up_swaps self w sel sn p pn pre a post :
  selection self = Some sel → root self ≠ Some sel →
  store w !! sel = Some sn → parent sn = Some p → store w !! p = Some pn →
  children pn = pre ++ a :: sel :: post → sel ∉ pre → sel ≠ a →
  move_up self w =
    Ok (set_dirty self,
        with_store (<[p := set_children (pre ++ sel :: a :: post) pn]> (store w)) w).
Proof.
  intros Hsel Hroot Hs Hsp Hp Hcs Hpre Hne. unfold move_up.
  rewrite (_shift_children _ _ _ _ _ _ _ (pre ++ [a]) post Hsel Hroot Hs Hsp Hp).
  - rewrite length_app, <- (assoc_L (++) pre [a] post). cbn [length app].
    replace (Z.of_nat (length pre + 1) + -1)%Z with (Z.of_nat (length pre)) by lia.
    by rewrite insert_at_middle.
  - by rewrite <- (assoc_L (++)).
  - rewrite elem_of_app, list_elem_of_singleton. by intros [?|?].
Qed.

Lemma move_down_swaps self w sel sn p pn pre b post :
  selection self = Some sel → root self ≠ Some sel →
  store w !! sel = Some sn → parent sn = Some p → store w !! p = Some pn →
  children pn = pre ++ sel :: b :: post → sel ∉ pre →
  move_down self w =
    Ok (set_dirty self,
        with_store (<[p := set_children (pre ++ b :: sel :: post) pn]> (store w)) w).
Proof.
  intros Hsel Hroot Hs Hsp Hp Hcs Hpre. unfold move_down.
  rewrite (_shift_children _ _ _ _ _ _ _ pre (b :: post) Hsel Hroot Hs Hsp Hp Hcs Hpre).
  replace (pre ++ b :: post) with ((pre ++ [b]) ++ post) by (by rewrite <- (assoc_L (++))).
  replace (Z.of_nat (length pre) + 1)%Z with (Z.of_nat (length (pre ++ [b])))
    by (rewrite length_app; cbn; lia).
  by rewrite insert_at_middle, <- (assoc_L (++)).
Qed.

(** The last child stays where it is when moved down ... *)
Lemma move_down_last self w sel sn p pn pre :
  selection self = Some sel → root self ≠ Some sel →
  store w !! sel = Some sn → parent sn = Some p → store w !! p = Some pn →
  children pn = pre ++ [sel] → sel ∉ pre →
  move_down self w =
    Ok (set_dirty self, with_store (<[p := set_children (pre ++ [sel]) pn]> (store w)) w).
Proof.
  intros Hsel Hroot Hs Hsp Hp Hcs Hpre. unfold move_down.
  rewrite (_shift_children _ _ _ _ _ _ _ pre [] Hsel Hroot Hs Hsp Hp Hcs Hpre).
  rewrite app_nil_r. by rewrite insert_at_end by lia.
Qed.

(** ... but the first child, moved up, lands before the last of its
    siblings: index [-1] counts from the end of the list. *)
Lemma move_up_first self w sel sn p pn mid z :
  selection self = Some sel → root self ≠ Some sel →
  store w !! sel = Some sn → parent sn = Some p → store w !! p = Some pn →
  children pn = sel :: mid ++ [z] →
  move_up self w =
    Ok (set_dirty self,
        with_store (<[p := set_children (mid ++ [sel; z]) pn]> (store w)) w).
Proof.
  intros Hsel Hroot Hs Hsp Hp Hcs. unfold move_up.
  rewrite (_shift_children _ _ _ _ _ _ _ [] (mid ++ [z]) Hsel Hroot Hs Hsp Hp Hcs).
  - cbn [length app]. by rewrite insert_at_minus_one.
  - apply not_elem_of_nil.
Qed.

(** C3. The claim is that moving the first child up leaves the order
    of the children as it is.  With three children [1; 2; 3] and the
    first one selected, [move_up] pops it and inserts it at index -1:
    the children become [2; 1; 3], the selection has moved down. *)
Theorem move_up_first_of_three :
  move_up (Tree.mk false "" (Some 1) DEFAULT_MANIFEST (Some 0))
    (World [ Node.mk (Some "TP") None [1; 2; 3] None;
             Node.mk (Some "A") None [] (Some 0);
             Node.mk (Some "B") None [] (Some 0);
             Node.mk (Some "C") None [] (Some 0) ] None ∅) =
  Ok (Tree.mk true "" (Some 1) DEFAULT_MANIFEST (Some 0),
      World [ Node.mk (Some "TP") None [2; 1; 3] None;
              Node.mk (Some "A") None [] (Some 0);
              Node.mk (Some "B") None [] (Some 0);
              Node.mk (Some "C") None [] (Some 0) ] None ∅).
Proof. reflexivity. Qed.

(** C10. [copy] with a selection returns the tree as it was (root,
    selection, dirty flag, manifest, last path), leaves the node
    objects and the files as they were, and stores the record of the
    selected subtree in the pasteboard, replacing what was there. *)
Theorem copy_changes_only_pasteboard depth self w sel d :
  selection self = Some sel →
  to_dict depth sel (store w) = Ok d →
  copy depth self w = Ok (self, World (store w) (Some d) (files w)).
Proof. intros Hsel Hd. unfold copy. by rewrite Hsel, Hd. Qed.

Lemma copy_changes_only_pasteboard_witness :
  copy 3 (Tree.mk false "a.treemendous" (Some 1) DEFAULT_MANIFEST (Some 0))
    (World [ Node.mk (Some "TP") None [1] None;
             Node.mk (Some "DP") None [2] (Some 0);
             Node.mk (Some "D") (Some "the") [] (Some 1) ]
           (Some (Dict None None None)) ∅) =
  Ok (Tree.mk false "a.treemendous" (Some 1) DEFAULT_MANIFEST (Some 0),
      World [ Node.mk (Some "TP") None [1] None;
              Node.mk (Some "DP") None [2] (Some 0);
              Node.mk (Some "D") (Some "the") [] (Some 1) ]
            (Some (Dict (Some (Some "DP")) (Some None)
                     (Some [Dict (Some (Some "D")) (Some (Some "the")) (Some [])]))) ∅).
Proof.
  exact (copy_changes_only_pasteboard 3
           (Tree.mk false "a.treemendous" (Some 1) DEFAULT_MANIFEST (Some 0))
           (World [ Node.mk (Some "TP") None [1] None;
                    Node.mk (Some "DP") None [2] (Some 0);
                    Node.mk (Some "D") (Some "the") [] (Some 1) ]
                  (Some (Dict None None None)) ∅)
           1 _ eq_refl eq_refl).
Defined.

End documents.

(** ** Records and stored trees *)

Section encoding.
Import Node Encoding.
Implicit Types (h : list Node.t) (d : dict) (r : ref).

Lemma mapM_Ok {A B} (f : A → result B) (l : list A) (k : list B) :
  mapM f l = Ok k ↔ Forall2 (λ x y, f x = Ok y) l k.
Proof.
  revert k. induction l as [|x l IH]; intros k; cbn [mapM].
  - split; [intros [= <-]; constructor|by inversion 1].
  - destruct (f x) as [y|e] eqn:Hx; cbn.
    + destruct (mapM f l) as [k'|e] eqn:Hl; cbn.
      * split.
        -- intros [= <-]. constructor; [done|]. by apply IH.
        -- inversion 1 as [|???? Hy Hk]; subst. rewrite Hx in Hy.
           apply IH in Hk. by simplify_eq.
      * split; [done|]. inversion 1 as [|???? Hy Hk]; subst. by apply IH in Hk.
    + split; [done|]. inversion 1 as [|???? Hy Hk]; subst. congruence.
Qed.

Lemma layout_unfold base par l v cs :
  layout base par (Dict l v cs) =
  mk (get_field l) (get_field v) (child_refs (S base) (get_children cs)) par
    :: layouts base (S base) (get_children cs).
Proof.
  destruct cs as [cs|]; [|reflexivity]. cbn [layout get_children]. f_equal.
  generalize (S base). induction cs as [|c cs IH]; intros b; [reflexivity|].
  cbn [layouts]. by rewrite <- IH.
Qed.

Lemma size_unfold l v cs :
  size (Dict l v cs) = S (sum_list (map size (get_children cs))).
Proof. by destruct cs. Qed.

Lemma length_layouts parent b cs :
  Forall (λ d, ∀ base par, length (layout base par d) = size d) cs →
  length (layouts parent b cs) = sum_list (map size cs).
Proof.
  intros H. revert b. induction H as [|c cs Hc _ IH]; intros b; [reflexivity|].
  cbn [layouts map sum_list]. by rewrite length_app, Hc, IH.
Qed.

Lemma length_layout d : ∀ base par, length (layout base par d) = size d.
Proof.
  induction d as [l v cs IH] using Encoding.dict_nested_ind; intros base par.
  rewrite layout_unfold, size_unfold. cbn [length]. by rewrite length_layouts.
Qed.

Lemma length_layouts' parent b cs :
  length (layouts parent b cs) = sum_list (map size cs).
Proof. apply length_layouts, Forall_forall. intros d _. apply length_layout. Qed.

(** Only the first node of a layout knows the parent. *)
Lemma layout_parent base par d :
  layout base par d = set_parent par (hd (mk None None [] None) (layout base None d))
                        :: tail (layout base None d).
Proof. destruct d as [l v cs]. by rewrite !layout_unfold. Qed.

Lemma layout_head base d :
  ∃ n rest, layout base None d = n :: rest ∧ parent n = None.
Proof. destruct d as [l v cs]. rewrite layout_unfold. eauto. Qed.

Lemma from_dict_unfold l v cs h :
  from_dict (Dict l v cs) h =
  h' ← each_child (length h) (get_children cs) (h ++ [mk (get_field l) (get_field v) [] None]);
  mret (length h, h').
Proof.
  cbn [from_dict new]. f_equal.
  assert (∀ cs' h', (fix each (cs : list dict) (hh : list Node.t) : result (list Node.t) :=
            match cs with
            | [] => mret hh
            | c :: cs' =>
                '(cr, h0) ← from_dict c hh;
                h1 ← add_child (length h) cr h0;
                each cs' h1
            end) cs' h' = each_child (length h) cs' h') as Heach.
  { induction cs' as [|c cs' IH]; intros h'; [reflexivity|].
    cbn [each_child]. destruct (from_dict c h') as [[cr h0]|e]; [|reflexivity]. cbn.
    destruct (add_child (length h) cr h0); [|reflexivity]. cbn. apply IH. }
  destruct cs as [cs|]; cbn [get_children]; [apply Heach|reflexivity].
Qed.

Lemma insert_middle {A} (l1 l2 : list A) (x y : A) n :
  n = length l1 → <[n := y]> (l1 ++ x :: l2) = l1 ++ y :: l2.
Proof. intros ->. by induction l1; f_equal/=. Qed.

(** The loop appends the layout of each child and records the child
    with the new node. *)
Lemma each_child_layout res cs :
  Forall (λ c, ∀ h, from_dict c h = Ok (length h, h ++ layout (length h) None c)) cs →
  ∀ h0 l v done nodes,
    length h0 = res →
    each_child res cs (h0 ++ mk l v done None :: nodes) =
    Ok (h0 ++ mk l v (done ++ child_refs (S res + length nodes) cs) None
           :: nodes ++ layouts res (S res + length nodes) cs).
Proof.
  induction 1 as [|c cs Hc _ IH]; intros h0 l v done nodes Hres.
  - cbn [each_child child_refs layouts]. by rewrite !app_nil_r.
  - cbn [each_child]. rewrite Hc. cbn.
    set (b := S res + length nodes).
    assert (length (h0 ++ mk l v done None :: nodes) = b) as Hb
      by (rewrite length_app; cbn [length]; lia).
    rewrite Hb.
    destruct (layout_head b c) as (n0 & rest & Hlay & Hpar).
    assert (layout b (Some res) c = set_parent (Some res) n0 :: rest) as Hlay'
      by (by rewrite layout_parent, Hlay).
    rewrite Hlay. unfold add_child.
    rewrite (deref_Some _ b n0) by (by apply list_lookup_middle).
    cbn. rewrite Hpar.
    rewrite <- (assoc_L (++)). cbn [app].
    rewrite (deref_Some _ res (mk l v done None)) by (by apply list_lookup_middle).
    cbn.
    rewrite (assign_Some _ res (mk l v done None)) by (by apply list_lookup_middle).
    cbn. rewrite insert_middle by done.
    change (set_children ?c (mk l v done None)) with (mk l v c None).
    assert (∀ N, length (h0 ++ N :: nodes) = b) as Hb'
      by (intros; rewrite length_app; cbn [length]; lia).
    rewrite (assign_Some _ b n0).
    2:{ rewrite app_comm_cons, (assoc_L (++)). by apply list_lookup_middle. }
    cbn. rewrite app_comm_cons, (assoc_L (++)), insert_middle by done.
    rewrite <- (assoc_L (++)), <- app_comm_cons, <- Hlay'.
    rewrite app_comm_cons.
    replace (nodes ++ layout b (Some res) c) with (nodes ++ layout b (Some res) c) by done.
    rewrite <- (app_comm_cons nodes).
    rewrite (assoc_L (++) nodes).
    etrans; [apply (IH h0 l v (done ++ [b]) (nodes ++ layout b (Some res) c) Hres)|].
    rewrite length_app, length_layout.
    replace (S res + (length nodes + size c)) with (b + size c) by lia.
    cbn [child_refs layouts].
    by rewrite <- !(assoc_L (++)).
Qed.

(** [from_dict] never fails: it allocates the nodes of the record after
    the nodes the store already has, in the order of [layout]. *)
Lemma from_dict_layout d :
  ∀ h, from_dict d h = Ok (length h, h ++ layout (length h) None d).
Proof.
  induction d as [l v cs IH] using Encoding.dict_nested_ind; intros h.
  rewrite from_dict_unfold, layout_unfold.
  rewrite (each_child_layout (length h) _ IH h _ _ [] [] eq_refl).
  cbn [length app]. by rewrite Nat.add_0_r.
Qed.

(** A layout placed anywhere in a store holds the tree of its record. *)
Lemma encodes_layouts parent cs :
  Forall (λ d, ∀ pre post par,
            encodes (pre ++ layout (length pre) par d ++ post) (length pre) (norm d)) cs →
  ∀ pre post,
    Forall2 (encodes (pre ++ layouts parent (length pre) cs ++ post))
            (child_refs (length pre) cs) (map norm cs).
Proof.
  induction 1 as [|c cs Hc _ IH]; intros pre post; [constructor|].
  cbn [child_refs layouts map]. constructor.
  - rewrite <- (assoc_L (++)). apply Hc.
  - specialize (IH (pre ++ layout (length pre) (Some parent) c) post).
    rewrite length_app, length_layout in IH.
    by rewrite <- !(assoc_L (++)) in IH |- *.
Qed.

Lemma encodes_layout d :
  ∀ pre post par,
    encodes (pre ++ layout (length pre) par d ++ post) (length pre) (norm d).
Proof.
  induction d as [l v cs IH] using Encoding.dict_nested_ind; intros pre post par.
  rewrite layout_unfold.
  set (n := mk (get_field l) (get_field v) (child_refs (S (length pre)) (get_children cs)) par).
  replace (norm (Dict l v cs)) with
    (Dict (Some (label n)) (Some (value n)) (Some (map norm (get_children cs))))
    by (by destruct cs).
  constructor; [by apply list_lookup_middle|].
  pose proof (encodes_layouts (length pre) _ IH (pre ++ [n]) post) as H.
  rewrite length_app, Nat.add_1_r in H. cbn [length] in H.
  by rewrite <- !(assoc_L (++)) in H.
Qed.

Lemma to_dict_unfold depth r h :
  to_dict (S depth) r h =
  n ← deref r h;
  cs ← mapM (λ c, to_dict depth c h) (children n);
  mret (Dict (Some (label n)) (Some (value n)) (Some cs)).
Proof. reflexivity. Qed.

(** What [to_dict] returns is the record of the stored tree ... *)
Lemma to_dict_encodes depth :
  ∀ r h d, to_dict depth r h = Ok d → encodes h r d.
Proof.
  induction depth as [|depth IH]; intros r h d; [done|].
  rewrite to_dict_unfold. unfold deref.
  destruct (h !! r) as [n|] eqn:Hr; [|done]. cbn.
  destruct (mapM _ (children n)) as [cs|] eqn:Hcs; [|done]. cbn.
  intros [= <-]. constructor; [done|].
  apply mapM_Ok in Hcs. eapply Forall2_impl; [done|]. cbv beta. eauto.
Qed.

(** ... no deeper than the recursion went ... *)
Lemma to_dict_height depth :
  ∀ r h d, to_dict depth r h = Ok d → height d ≤ depth.
Proof.
  induction depth as [|depth IH]; intros r h d; [done|].
  rewrite to_dict_unfold. unfold deref.
  destruct (h !! r) as [n|] eqn:Hr; [|done]. cbn.
  destruct (mapM _ (children n)) as [cs|] eqn:Hcs; [|done]. cbn.
  intros [= <-]. cbn [height]. apply le_n_S.
  apply mapM_Ok in Hcs. clear Hr.
  induction Hcs as [|c y cs1 ds Hy _ IHcs]; [cbn; lia|].
  apply IH in Hy. cbn in *. lia.
Qed.

(** ... and [to_dict] returns it whenever the recursion limit allows
    for the height of the tree. *)
Lemma encodes_to_dict h d :
  ∀ r depth, encodes h r d → height d ≤ depth → to_dict depth r h = Ok d.
Proof.
  induction d as [l v cs IH] using Encoding.dict_nested_ind; intros r depth Henc Hh.
  inversion Henc as [r0 n ds Hr Hds]; subst. cbn [get_children height] in *.
  destruct depth as [|depth]; [lia|]. apply le_S_n in Hh.
  rewrite to_dict_unfold, (deref_Some _ _ _ Hr). cbn.
  assert (mapM (λ c, to_dict depth c h) (children n) = Ok ds) as ->; [|done].
  apply mapM_Ok. clear Hr Henc.
  induction Hds as [|c y cs1 ds1 Hy _ IHds]; [constructor|].
  apply Forall_cons in IH as [IHy IH]. cbn in Hh.
  constructor; [apply IHy; [done|lia]|apply IHds; [done|lia]].
Qed.

Lemma encodes_norm h d : ∀ r, encodes h r d → norm d = d.
Proof.
  induction d as [l v cs IH] using Encoding.dict_nested_ind; intros r Henc.
  inversion Henc as [r0 n ds Hr Hds]; subst. cbn [get_children norm get_field] in *.
  do 2 f_equal. clear Hr Henc.
  induction Hds as [|c y cs1 ds1 Hy _ IHds]; [done|].
  apply Forall_cons in IH as [IHy IH]. cbn [map].
  f_equal; [by eapply IHy|by apply IHds].
Qed.

(** Two stored trees with the same record are the same tree. *)
Lemma encodes_same_tree h h' d :
  ∀ r r', encodes h r d → encodes h' r' d → same_tree h h' r r'.
Proof.
  induction d as [l v cs IH] using Encoding.dict_nested_ind; intros r r' Henc Henc'.
  inversion Henc as [r0 n ds Hr Hds Heq]; subst.
  inversion Henc' as [r1 n' ds1 Hr' Hds']; subst.
  cbn [get_children] in IH.
  econstructor; [done|done|done|done|]. clear Hr Hr' Henc Henc'.
  revert Hds'. generalize (children n').
  induction Hds as [|c y cs1 ds1 Hy _ IHds]; intros cs2 Hds'.
  - inversion Hds'. constructor.
  - inversion Hds' as [|c2 ? cs3 ? Hy' Hds2]; subst.
    apply Forall_cons in IH as [IHy IH].
    constructor; [by apply IHy|by apply IHds].
Qed.

(** C1. Whenever [to_dict] returns a record for a node, [from_dict]
    succeeds on that record and builds, from new nodes after those of
    the store, a tree that is the same as the encoded one: the same
    label and the same value (absent where it was absent, never an
    empty string instead) on every node, the children in the same
    order.  The nodes the store had are untouched, the new root has no
    parent, and encoding the new tree gives the record again. *)
Theorem from_dict_to_dict depth self h d :
  to_dict depth self h = Ok d →
  ∃ r' h',
    from_dict d h = Ok (r', h') ∧
    same_tree h h' self r' ∧
    to_dict depth r' h' = Ok d ∧
    (∀ r n, h !! r = Some n → h' !! r = Some n) ∧
    parent <$> h' !! r' = Some None.
Proof.
  intros Hd. pose proof (to_dict_encodes _ _ _ _ Hd) as Henc.
  pose proof (to_dict_height _ _ _ _ Hd) as Hh.
  exists (length h), (h ++ layout (length h) None d).
  pose proof (encodes_layout d h [] None) as Hnew.
  rewrite app_nil_r, (encodes_norm _ _ _ Henc) in Hnew.
  split; [apply from_dict_layout|]. split; [by eapply encodes_same_tree|].
  split; [by apply encodes_to_dict|]. split.
  - intros r n Hr. by apply lookup_app_l_Some.
  - destruct (layout_head (length h) d) as (n0 & rest & -> & Hp).
    rewrite list_lookup_middle by done. cbn. by rewrite Hp.
Qed.

End encoding.

Section round_trip_example.
Import Node Encoding.

Lemma from_dict_to_dict_witness :
  ∃ r' h',
    from_dict
      (Dict (Some (Some "TP")) (Some None)
         (Some [Dict (Some None) (Some (Some "")) (Some []);
                Dict (Some (Some "T<bar/>")) (Some None) (Some [])]))
      [ mk (Some "TP") None [1; 2] None;
        mk None (Some "") [] (Some 0);
        mk (Some "T<bar/>") None [] (Some 0) ] = Ok (r', h') ∧
    same_tree
      [ mk (Some "TP") None [1; 2] None;
        mk None (Some "") [] (Some 0);
        mk (Some "T<bar/>") None [] (Some 0) ] h' 0 r' ∧
    to_dict 2 r' h' =
      Ok (Dict (Some (Some "TP")) (Some None)
            (Some [Dict (Some None) (Some (Some "")) (Some []);
                   Dict (Some (Some "T<bar/>")) (Some None) (Some [])])) ∧
    (∀ r n,
       [ mk (Some "TP") None [1; 2] None;
         mk None (Some "") [] (Some 0);
         mk (Some "T<bar/>") None [] (Some 0) ] !! r = Some n → h' !! r = Some n) ∧
    parent <$> h' !! r' = Some None.
Proof.
  exact (from_dict_to_dict 2 0
           [ mk (Some "TP") None [1; 2] None;
             mk None (Some "") [] (Some 0);
             mk (Some "T<bar/>") None [] (Some 0) ]
           _ eq_refl).
Defined.
End round_trip_example.

(** ** Containers *)

Section containers.
Import Node Encoding Tree.
Implicit Types (self : Tree.t) (w : world) (m : gmap string string).

Lemma my_major : int (before_dot __version__) = Ok 1%Z.
Proof. reflexivity. Qed.

(** The manifest of a loaded document: the entries of the container,
    and the default version only where the container has none. *)
Lemma loaded_version m :
  (m ∪ DEFAULT_MANIFEST) !! "version" = Some (default __version__ (m !! "version")).
Proof.
  unfold DEFAULT_MANIFEST. destruct (m !! "version") as [v|] eqn:Hv; cbn.
  - by apply lookup_union_Some_l.
  - rewrite lookup_union_r by done. by rewrite lookup_singleton_eq.
Qed.

Lemma read_manifest path w m te self :
  files w !! path = Some (ZipFile (Zip (Some m) te)) →
  read path self w =
    (let self := Tree.mk (dirty self) (last_path self) (selection self)
                   (m ∪ manifest self) (root self) in
     my_major ← int (before_dot __version__);
     version ← open_entry (manifest self !! "version");
     their_major ← int (before_dot version);
     if (my_major <? their_major)%Z then
       Raise (IncompatibleFormatError
                (TooNew __version__ (pretty their_major +:+ ".0.0")))
     else
       d ← open_entry te;
       '(r, h) ← Node.from_dict d (store w);
       mret (Tree.mk (dirty self) (last_path self) (selection self) (manifest self)
               (Some r), with_store h w)).
Proof. intros Hf. unfold read, open_zip. by rewrite Hf. Qed.

(** C9. For a container with a manifest whose version starts with a
    number: when that number exceeds the major version of the running
    program (1), loading fails with [IncompatibleFormatError], naming
    that major version, whatever the structural entry is and even when
    it is missing, so it is not read; otherwise, whatever follows the
    first dot of either version, loading succeeds with the decoded
    tree whenever the structural entry is there (and is found missing
    when it is not). *)
Theorem version_gate path w m te version their_major :
  path ≠ "" →
  files w !! path = Some (ZipFile (Zip (Some m) te)) →
  (m ∪ DEFAULT_MANIFEST) !! "version" = Some version →
  int (before_dot version) = Ok their_major →
  ((1 < their_major)%Z →
     __init__ (Some path) w =
       Raise (IncompatibleFormatError
                (TooNew __version__ (pretty their_major +:+ ".0.0")))) ∧
  ((their_major ≤ 1)%Z →
     match te with
     | Some d =>
         __init__ (Some path) w =
           Ok (Tree.mk false path None (m ∪ DEFAULT_MANIFEST) (Some (length (store w))),
               with_store (store w ++ layout (length (store w)) None d) w)
     | None => __init__ (Some path) w = Raise (IncompatibleFormatError Unreadable)
     end).
Proof.
  intros Hpath Hf Hv Hint.
  assert (__init__ (Some path) w =
          match read path (Tree.mk false path None DEFAULT_MANIFEST None) w with
          | Raise KeyError | Raise BadZipFile =>
              Raise (IncompatibleFormatError Unreadable)
          | other => other
          end) as Hinit by (by destruct path).
  rewrite Hinit, (read_manifest _ _ _ _ _ Hf). clear Hinit.
  cbn [dirty last_path selection manifest root]. cbv zeta.
  rewrite my_major, Hv. cbn. rewrite Hint. cbn. split.
  - intros Hlt. by rewrite (proj2 (Z.ltb_lt _ _) Hlt).
  - intros Hle. rewrite (proj2 (Z.ltb_ge _ _) Hle).
    destruct te as [d|]; [|done]. cbn. by rewrite from_dict_layout.
Qed.

Lemma version_gate_witness :
  __init__ (Some "new.treemendous")
    (World [] None
       {[ "new.treemendous" := ZipFile (Zip (Some {[ "version" := "2.1.0" ]}) None) ]}) =
  Raise (IncompatibleFormatError (TooNew "1.0.0rc3" "2.0.0")).
Proof.
  apply (proj1 (version_gate "new.treemendous"
                  (World [] None
                     {[ "new.treemendous" :=
                          ZipFile (Zip (Some {[ "version" := "2.1.0" ]}) None) ]})
                  {[ "version" := "2.1.0" ]} None "2.1.0" 2%Z
                  ltac:(discriminate) ltac:(reflexivity) ltac:(reflexivity)
                  ltac:(reflexivity))).
  lia.
Defined.

(** A container of an older or equal major version loads, whatever its
    minor and patch parts. *)
Example load_older_minor :
  __init__ (Some "old.treemendous")
    (World [] None
       {[ "old.treemendous" :=
            ZipFile (Zip (Some {[ "version" := "1.7.3" ]})
                       (Some (Dict (Some (Some "TP")) (Some None) (Some [])))) ]}) =
  Ok (Tree.mk false "old.treemendous" None
        ({[ "version" := "1.7.3" ]} ∪ DEFAULT_MANIFEST) (Some 0),
      World [Node.mk (Some "TP") None [] None] None
        {[ "old.treemendous" :=
             ZipFile (Zip (Some {[ "version" := "1.7.3" ]})
                        (Some (Dict (Some (Some "TP")) (Some None) (Some [])))) ]}).
Proof. reflexivity. Qed.

Lemma bind_Ok {A B} (r : result A) (f : A → result B) (y : B) :
  r ≫= f = Ok y → ∃ x, r = Ok x ∧ f x = Ok y.
Proof. destruct r as [x|e]; [eauto|done]. Qed.

Lemma init_loaded path w self w' :
  path ≠ "" → __init__ (Some path) w = Ok (self, w') →
  ∃ m, stored_manifest path w = Some m ∧ manifest self = m ∪ DEFAULT_MANIFEST.
Proof.
  intros Hpath Hinit. unfold stored_manifest.
  assert (read path (Tree.mk false path None DEFAULT_MANIFEST None) w = Ok (self, w'))
    as Hread.
  { destruct path; [done|]. cbn in Hinit.
    by destruct (read _ _ w) as [?|[]]. }
  clear Hinit. unfold read, open_zip in Hread.
  destruct (files w !! path) as [[[[m|] te]|]|]; try done.
  cbn [mbind result_bind open_entry manifest_json tree_json] in Hread.
  cbn [dirty last_path selection manifest root] in Hread.
  apply bind_Ok in Hread as (mine & _ & Hread).
  apply bind_Ok in Hread as (v & _ & Hread).
  apply bind_Ok in Hread as (theirs & _ & Hread).
  destruct (mine <? theirs)%Z; [done|].
  apply bind_Ok in Hread as (d & _ & Hread).
  apply bind_Ok in Hread as ([r h] & _ & Hread).
  injection Hread as <- _. eauto.
Qed.

(** C6 (amended). A successful save to the container format writes the
    manifest of the document as it is, and leaves it as it is in the
    document.  Its version field is therefore the one the document
    got when it was created: the version of the running program for a
    document created without a file, and for a document loaded from a
    container the version in that container's manifest (the version
    of the running program only if that manifest had none). *)
Theorem save_writes_manifest (graphviz_write : string → Tree.t → world → result (Tree.t * world))
    (depth : nat) :
  (∀ path self w self' w' target,
     target_path path self = Ok target →
     endswith target ".gv" = false → endswith target ".png" = false →
     save graphviz_write depth path self w = Ok (self', w') →
     stored_manifest target w' = Some (manifest self) ∧ manifest self' = manifest self) ∧
  (∀ w self w', __init__ None w = Ok (self, w') →
     manifest self !! "version" = Some __version__) ∧
  (∀ path w self w', path ≠ "" → __init__ (Some path) w = Ok (self, w') →
     ∃ m, stored_manifest path w = Some m ∧
          manifest self !! "version" = Some (default __version__ (m !! "version"))).
Proof.
  split; [|split].
  - intros path self w self' w' target Htarget Hgv Hpng. unfold save.
    rewrite Htarget. cbn. rewrite Hgv, Hpng.
    destruct (root self) as [r|]; [|done].
    destruct (to_dict depth r (store w)) as [d|]; [|done]. cbn.
    intros [= <- <-]. unfold stored_manifest. cbn.
    by rewrite lookup_insert_eq.
  - intros w self w' [= <- _]. cbn. unfold DEFAULT_MANIFEST.
    by rewrite lookup_singleton_eq.
  - intros path w self w' Hpath Hinit.
    destruct (init_loaded _ _ _ _ Hpath Hinit) as (m & Hm & ->).
    exists m. split; [done|apply loaded_version].
Qed.

Lemma save_writes_manifest_witness :
  stored_manifest "old.treemendous"
    (World [Node.mk (Some "TP") None [] None] None
       {[ "old.treemendous" :=
            ZipFile (Zip (Some ({[ "version" := "0.9.0" ]} ∪ DEFAULT_MANIFEST))
                       (Some (Dict (Some (Some "TP")) (Some None) (Some [])))) ]})
    = Some ({[ "version" := "0.9.0" ]} ∪ DEFAULT_MANIFEST) ∧
  {[ "version" := "0.9.0" ]} ∪ DEFAULT_MANIFEST = {[ "version" := "0.9.0" ]} ∪ DEFAULT_MANIFEST.
Proof.
  exact (proj1 (save_writes_manifest (λ _ self w, Ok (self, w)) 5)
           None
           (Tree.mk true "old.treemendous" None
              ({[ "version" := "0.9.0" ]} ∪ DEFAULT_MANIFEST) (Some 0))
           (World [Node.mk (Some "TP") None [] None] None ∅)
           _ _ "old.treemendous" eq_refl eq_refl eq_refl eq_refl).
Defined.

(** C6, as stated, fails: a container written by version 0.9.0 is
    loaded and saved again by the running version 1.0.0rc3, and the
    manifest written still says 0.9.0. *)
Lemma save_keeps_loaded_version :
  ∃ self w self' w',
    __init__ (Some "old.treemendous")
      (World [] None
         {[ "old.treemendous" :=
              ZipFile (Zip (Some {[ "version" := "0.9.0" ]})
                         (Some (Dict (Some (Some "TP")) (Some None) (Some [])))) ]})
      = Ok (self, w) ∧
    save (λ _ self w, Ok (self, w)) 5 None self w = Ok (self', w') ∧
    stored_manifest "old.treemendous" w' ≫= (.!! "version") = Some "0.9.0" ∧
    stored_manifest "old.treemendous" w' ≫= (.!! "version") ≠ Some __version__.
Proof.
  do 4 eexists. split; [reflexivity|]. split; [reflexivity|]. by vm_compute.
Qed.

End containers.

(** ** The translator on arbitrary input *)

Section translator_in_general.
Import GVParser Markup Count.

Lemma math_tag_recognised (tag : string) :
  mem tag MATHMODE_REQUIRED = true → ∃ o, lookup_tex tag TEX_MAP = Some o.
Proof.
  unfold mem, MATHMODE_REQUIRED. cbn [existsb]. intros H.
  repeat (apply orb_prop in H as [H|H];
          [apply String.eqb_eq in H as ->; cbn; eauto|]).
  done.
Qed.

Lemma handle_starttag_stacks (tag : string) attrs (p : state) :
  _tag_stack (handle_starttag tag attrs p) =
    (if bool_decide (is_Some (lookup_tex tag TEX_MAP))
     then _tag_stack p ++ [tag] else _tag_stack p) ∧
  (mem tag MATHMODE_REQUIRED = true → _math_stack (handle_starttag tag attrs p) ≠ []).
Proof.
  unfold handle_starttag. split.
  - destruct (lookup_tex tag TEX_MAP) as [o|] eqn:Ho;
      [rewrite bool_decide_eq_true_2 by eauto|rewrite bool_decide_eq_false_2 by by intros []];
      by destruct attrs, (mem tag MATHMODE_REQUIRED), (mem tag SPECIALS).
  - intros Hm. destruct (math_tag_recognised _ Hm) as [o Ho]. rewrite Ho, Hm.
    destruct attrs, (mem tag SPECIALS); cbn; by destruct (_math_stack p).
Qed.

Lemma handle_endtag_tag_stack (tag : string) (p q : state) :
  handle_endtag tag p = Ok q →
  _tag_stack q = removelast (_tag_stack p) ∧
  valid q = match last (_tag_stack p) with
            | Some top => bool_decide (is_Some (lookup_tex top TEX_MAP))
            | None => false
            end ∧
  data q = data p.
Proof.
  unfold handle_endtag.
  destruct (_tag_stack p) as [|x ts _] eqn:Hts using rev_ind.
  - cbn [pop_right]. intros H.
    destruct (lookup_tex tag TEX_MAP), (mem tag MATHMODE_REQUIRED); cbn in H;
      try (destruct (pop_right (_math_stack p)) as [[ms ?]|]; cbn in H; [|done]);
      injection H as <-; cbn; by rewrite ?Hts.
  - rewrite pop_right_snoc, removelast_last, last_snoc. intros H.
    destruct (lookup_tex tag TEX_MAP), (mem tag MATHMODE_REQUIRED); cbn in H;
      try (destruct (pop_right (_math_stack p)) as [[ms ?]|]; cbn in H; [|done]);
      by injection H as <-.
Qed.



Lemma handle_all_balance (es : list event) :
  ∀ p p', handle_all es p = Ok p' →
    length (_tag_stack p) + sum_list (map pushes es)
      ≤ length (_tag_stack p') + sum_list (map pops es).
Proof.
  induction es as [|ev es IH]; intros p p'; [intros [= ->]; cbn; lia|].
  cbn [handle_all].
  change (sum_list (map pushes (ev :: es))) with (pushes ev + sum_list (map pushes es)).
  change (sum_list (map pops (ev :: es))) with (pops ev + sum_list (map pops es)).
  destruct (handle ev p) as [q|] eqn:Hev; [|done].
  change (Ok q ≫= ?f) with (f q). cbv beta. intros H.
  apply IH in H.
  assert (length (_tag_stack p) + pushes ev ≤ length (_tag_stack q) + pops ev); [|lia].
  clear H IH.
  destruct ev as [tag attrs|tag|tag attrs|d|]; cbn [handle] in Hev; cbn [pushes pops].
  - injection Hev as <-. rewrite (proj1 (handle_starttag_stacks _ _ _)).
    case_bool_decide; rewrite ?length_app; cbn [length]; lia.
  - apply handle_endtag_tag_stack in Hev as (-> & _).
    destruct (_tag_stack p) as [|x ts _] using rev_ind; [cbn [removelast length]; lia|].
    rewrite removelast_last, length_app. cbn [length]. lia.
  - apply handle_endtag_tag_stack in Hev as (-> & _).
    rewrite (proj1 (handle_starttag_stacks _ _ _)).
    case_bool_decide; [rewrite removelast_last; lia|].
    destruct (_tag_stack p) as [|x ts _] using rev_ind; [cbn [removelast length]; lia|].
    rewrite removelast_last, length_app. cbn [length]. lia.
  - injection Hev as <-. cbn [handle_data _tag_stack]. lia.
  - injection Hev as <-. lia.
Qed.

(** X2. An input with more start tags of the vocabulary than end tags
    is never reported valid: some tag is still open when [close] looks
    at the stack. *)
Theorem translate_more_opens_than_closes_invalid (fed flushed : list event) (p : state) :
  translate fed flushed = Ok p →
  forallb is_data flushed = true →
  sum_list (map pops fed) < sum_list (map pushes fed) →
  valid p = false.
Proof.
  unfold translate. destruct (handle_all fed reset) as [q|] eqn:Hfed; [|done]. cbn.
  intros Hclose Hdata Hlt. apply handle_all_balance in Hfed.
  cbn [reset _tag_stack length] in Hfed.
  unfold close in Hclose. destruct (_tag_stack q) as [|t ts] eqn:Hts; [cbn [length] in Hfed; lia|].
  destruct (handle_all_data flushed (mk false (t :: ts) (_math_stack q) (tex q) (data q)) Hdata)
    as (x & d & Hd).
  specialize (Hd false). cbn in Hd. rewrite Hd in Hclose. by injection Hclose as <-.
Qed.

Lemma translate_more_opens_than_closes_invalid_witness :
  valid (mk false ["b"] [] "\textbf{\textit{x}" "x") = false.
Proof.
  exact (translate_more_opens_than_closes_invalid
           [StartTag "b" []; StartTag "i" []; Data "x"; EndTag "i"] []
           (mk false ["b"] [] "\textbf{\textit{x}" "x") eq_refl eq_refl
           ltac:(cbn; lia)).
Defined.




Lemma handle_starttag_data (tag : string) attrs (p : state) :
  data (handle_starttag tag attrs p) = data p +:+ data_of (StartTag tag attrs).
Proof.
  unfold handle_starttag, data_of.
  destruct attrs, (lookup_tex tag TEX_MAP), (mem tag MATHMODE_REQUIRED), (mem tag SPECIALS);
    cbn [data]; by rewrite ?append_nil_r.
Qed.

Lemma handle_all_data_of (es : list event) :
  ∀ p p', handle_all es p = Ok p' → data p' = data p +:+ join (map data_of es).
Proof.
  induction es as [|ev es IH]; intros p p'.
  - intros [= ->]. by rewrite append_nil_r.
  - cbn [handle_all]. destruct (handle ev p) as [q|] eqn:Hev; [|done].
    change (Ok q ≫= ?f) with (f q). cbv beta. intros H. rewrite (IH _ _ H).
    cbn [map]. rewrite join_cons, <- append_assoc. f_equal. clear H IH.
    destruct ev as [tag attrs|tag|tag attrs|d|]; cbn [handle] in Hev.
    + injection Hev as <-. apply handle_starttag_data.
    + apply handle_endtag_tag_stack in Hev as (_ & _ & ->). by rewrite append_nil_r.
    + apply handle_endtag_tag_stack in Hev as (_ & _ & ->). apply handle_starttag_data.
    + by injection Hev as <-.
    + injection Hev as <-. by rewrite append_nil_r.
Qed.

(** X4. The identifier text [data] holds the text of the input and the
    words for the null and bar tags, in order, and nothing else: no
    markup, delimiter or brace reaches it, and neither attributes nor
    validity change it. *)
Theorem translate_data_is_text (fed flushed : list event) (p : state) :
  translate fed flushed = Ok p →
  data p = join (map data_of (fed ++ flushed)).
Proof.
  unfold translate. destruct (handle_all fed reset) as [q|] eqn:Hfed; [|done].
  change (Ok q ≫= ?f) with (f q). cbv beta. unfold close. intros Hflushed.
  apply handle_all_data_of in Hfed. apply handle_all_data_of in Hflushed.
  rewrite Hflushed, map_app.
  assert (∀ a b, join (a ++ b) = join a +:+ join b) as ->.
  { induction a as [|s a IH]; intros b; [done|]. cbn [app]. by rewrite !join_cons, IH, append_assoc. }
  f_equal. by destruct (_tag_stack q).
Qed.

Lemma translate_data_is_text_witness :
  data (mk true [] [] "T$^{\prime}$" "TBar") =
  join (map data_of ([Data "T"; StartEndTag "bar" []] ++ [])).
Proof.
  exact (translate_data_is_text [Data "T"; StartEndTag "bar" []] []
           (mk true [] [] "T$^{\prime}$" "TBar") eq_refl).
Defined.

End translator_in_general.

(** ** More on node operations *)

Section node_operations_in_general.
Import Node Encoding.
Implicit Types (h : list Node.t) (self c : ref).

Lemma add_child_Ok h self c sn cn :
  h !! self = Some sn → h !! c = Some cn → parent cn = None → self ≠ c →
  add_child self c h =
    Ok (<[c := set_parent (Some self) cn]>
          (<[self := set_children (children sn ++ [c]) sn]> h)).
Proof.
  intros Hs Hc Hp Hne. unfold add_child. rewrite (deref_Some _ _ _ Hc). cbn.
  rewrite Hp, (deref_Some _ _ _ Hs). cbn. rewrite (assign_Some _ _ _ _ Hs). cbn.
  apply assign_Some. by rewrite list_lookup_insert_ne.
Qed.

(** X5. [add_child] rejects a child that has a parent.  A parentless
    node other than the new parent is appended after the children
    already there and gets the new parent as its parent; no other
    object changes. *)
Theorem add_child_appends h self c sn cn :
  h !! self = Some sn → h !! c = Some cn →
  (is_Some (parent cn) → add_child self c h = Raise AssertionError) ∧
  (parent cn = None → self ≠ c →
     ∃ h', add_child self c h = Ok h' ∧
           h' !! self = Some (set_children (children sn ++ [c]) sn) ∧
           h' !! c = Some (set_parent (Some self) cn) ∧
           (∀ r, r ≠ self → r ≠ c → h' !! r = h !! r)).
Proof.
  intros Hs Hc. split.
  - intros [q Hq]. unfold add_child. rewrite (deref_Some _ _ _ Hc). cbn. by rewrite Hq.
  - intros Hp Hne. rewrite (add_child_Ok _ _ _ _ _ Hs Hc Hp Hne).
    eexists. split; [done|]. split; [|split].
    + rewrite list_lookup_insert_ne by done. by eapply lookup_insert_same.
    + eapply lookup_insert_same. by rewrite list_lookup_insert_ne.
    + intros r ? ?. by rewrite !list_lookup_insert_ne.
Qed.

Lemma add_child_appends_witness :
  ∃ h', add_child 0 2 [ mk (Some "TP") None [1] None;
                         mk (Some "DP") None [] (Some 0);
                         mk (Some "T") None [] None ] = Ok h' ∧
        h' !! 0 = Some (mk (Some "TP") None [1; 2] None) ∧
        h' !! 2 = Some (mk (Some "T") None [] (Some 0)) ∧
        (∀ r, r ≠ 0 → r ≠ 2 →
           h' !! r = [ mk (Some "TP") None [1] None;
                       mk (Some "DP") None [] (Some 0);
                       mk (Some "T") None [] None ] !! r).
Proof.
  apply (proj2 (add_child_appends
                  [ mk (Some "TP") None [1] None; mk (Some "DP") None [] (Some 0);
                    mk (Some "T") None [] None ]
                  0 2 (mk (Some "TP") None [1] None) (mk (Some "T") None [] None)
                  eq_refl eq_refl)); [reflexivity|lia].
Defined.

(** X6. Deleting a node right after adding it as a child gives the
    parent its former children back, and every object but the node is as
    before; the node itself keeps the parent reference it was given. *)
Theorem add_child_then_delete h self c sn cn :
  h !! self = Some sn → h !! c = Some cn → parent cn = None → self ≠ c →
  c ∉ children sn →
  ∃ h1 h2, add_child self c h = Ok h1 ∧ delete c h1 = Ok h2 ∧
           (∀ r, r ≠ c → h2 !! r = h !! r) ∧
           h2 !! c = Some (set_parent (Some self) cn).
Proof.
  intros Hs Hc Hp Hne Hnotin. rewrite (add_child_Ok _ _ _ _ _ Hs Hc Hp Hne).
  set (h1 := <[c := _]> _).
  assert (h1 !! c = Some (set_parent (Some self) cn)) as Hc1.
  { subst h1. eapply lookup_insert_same. by rewrite list_lookup_insert_ne. }
  assert (h1 !! self = Some (set_children (children sn ++ [c]) sn)) as Hs1.
  { subst h1. rewrite list_lookup_insert_ne by done. by eapply lookup_insert_same. }
  exists h1, (<[self := sn]> h1). split; [done|]. split; [|split].
  - unfold delete. rewrite (deref_Some _ _ _ Hc1). cbn.
    rewrite (deref_Some _ _ _ Hs1). cbn. rewrite remove_middle by done. cbn.
    rewrite (assign_Some _ _ _ _ Hs1), app_nil_r. by destruct sn.
  - intros r Hr. destruct (decide (r = self)) as [->|Hrs].
    + by rewrite (lookup_insert_same _ _ _ _ Hs1).
    + rewrite list_lookup_insert_ne by done. subst h1. by rewrite !list_lookup_insert_ne.
  - by rewrite list_lookup_insert_ne.
Qed.

Lemma add_child_then_delete_witness :
  ∃ h1 h2, add_child 0 2 [ mk (Some "TP") None [1] None;
                            mk (Some "DP") None [] (Some 0);
                            mk (Some "T") None [] None ] = Ok h1 ∧
           delete 2 h1 = Ok h2 ∧
           (∀ r, r ≠ 2 →
              h2 !! r = [ mk (Some "TP") None [1] None;
                          mk (Some "DP") None [] (Some 0);
                          mk (Some "T") None [] None ] !! r) ∧
           h2 !! 2 = Some (mk (Some "T") None [] (Some 0)).
Proof.
  apply (add_child_then_delete
           [ mk (Some "TP") None [1] None; mk (Some "DP") None [] (Some 0);
             mk (Some "T") None [] None ]
           0 2 (mk (Some "TP") None [1] None) (mk (Some "T") None [] None));
    try reflexivity; [lia|].
  by intros [[=]|[]%elem_of_nil]%elem_of_cons.
Defined.

(** X7. [add_child] does not look for cycles: a parentless node can be
    made a child of itself, and from then on [to_dict] on it returns no
    record, whatever the recursion limit. *)
Theorem add_child_to_itself h self sn :
  h !! self = Some sn → parent sn = None →
  ∃ h', add_child self self h = Ok h' ∧
        h' !! self = Some (mk (label sn) (value sn) (children sn ++ [self]) (Some self)) ∧
        ∀ depth d, to_dict depth self h' ≠ Ok d.
Proof.
  intros Hs Hp. unfold add_child. rewrite (deref_Some _ _ _ Hs). cbn. rewrite Hp.
  rewrite (assign_Some _ _ _ _ Hs). cbn.
  rewrite (assign_Some _ _ (set_children (children sn ++ [self]) sn))
    by (by eapply lookup_insert_same).
  rewrite list_insert_insert_eq.
  eexists. split; [done|]. split; [by eapply lookup_insert_same|].
  induction depth as [|depth IH]; intros d; [done|].
  rewrite to_dict_unfold. erewrite deref_Some by (by eapply lookup_insert_same). cbn.
  destruct (mapM _ _) as [ds|] eqn:Hm; [|done].
  apply mapM_Ok, Forall2_app_inv_l in Hm as (ds1 & ds2 & _ & Hself & _).
  inversion Hself as [|???? Hd _]; subst. by apply IH in Hd.
Qed.

Lemma add_child_to_itself_witness :
  ∃ h', add_child 0 0 [mk (Some "TP") None [] None] = Ok h' ∧
        h' !! 0 = Some (mk (Some "TP") None [0] (Some 0)) ∧
        ∀ depth d, to_dict depth 0 h' ≠ Ok d.
Proof.
  exact (add_child_to_itself [mk (Some "TP") None [] None] 0
           (mk (Some "TP") None [] None) eq_refl eq_refl).
Defined.

End node_operations_in_general.

(** ** More on records and stored trees *)

Section encoding_in_general.
Import Node Encoding.
Implicit Types (h : list Node.t) (d : dict).

Lemma height_norm d : height (norm d) = height d.
Proof.
  induction d as [l v cs IH] using Encoding.dict_nested_ind.
  destruct cs as [cs|]; [|reflexivity]. cbn [get_children norm height] in *. f_equal.
  induction IH as [|c cs Hc _ IHcs]; [reflexivity|]. cbn in *. by rewrite Hc, IHcs.
Qed.

(** X8. [from_dict] accepts every record, also one with keys missing,
    and never fails; it adds exactly one node for each record in it,
    after the nodes the store has.  Encoding the result gives the record
    back with each missing key filled in: [None] for a label or value,
    no children. *)
Theorem to_dict_from_dict d h :
  ∃ h', from_dict d h = Ok (length h, h') ∧
        length h' = length h + size d ∧
        to_dict (height d) (length h) h' = Ok (norm d).
Proof.
  exists (h ++ layout (length h) None d). split; [apply from_dict_layout|]. split.
  - by rewrite length_app, length_layout.
  - apply encodes_to_dict; [|by rewrite height_norm].
    pose proof (encodes_layout d h [] None) as H. by rewrite app_nil_r in H.
Qed.

Lemma child_refs_layouts parent cs :
  ∀ b c, c ∈ child_refs b cs →
    b ≤ c ∧ ∃ cn, layouts parent b cs !! (c - b) = Some cn ∧ Node.parent cn = Some parent.
Proof.
  induction cs as [|c0 cs IH]; intros b c; cbn [child_refs layouts].
  - by intros ?%elem_of_nil.
  - intros [->|Hc]%elem_of_cons.
    + split; [done|]. rewrite Nat.sub_diag. destruct c0 as [l v cs0].
      rewrite layout_unfold. cbn. eauto.
    + destruct (IH _ _ Hc) as (Hle & cn & Hcn & Hp). split; [lia|].
      exists cn. split; [|done]. rewrite lookup_app_r by (rewrite length_layout; lia).
      rewrite length_layout. by replace (c - b - size c0) with (c - (b + size c0)) by lia.
Qed.

Lemma layouts_children parent cs :
  Forall (λ d, ∀ base par i n c,
            layout base par d !! i = Some n → c ∈ children n →
            base + i < c ∧
            ∃ cn, layout base par d !! (c - base) = Some cn ∧
                  Node.parent cn = Some (base + i)) cs →
  ∀ b j n c,
    layouts parent b cs !! j = Some n → c ∈ children n →
    b + j < c ∧
    ∃ cn, layouts parent b cs !! (c - b) = Some cn ∧ Node.parent cn = Some (b + j).
Proof.
  induction 1 as [|c0 cs Hc0 _ IH]; intros b j n c; cbn [layouts]; [done|].
  intros Hj Hc. destruct (decide (j < size c0)) as [Hlt|Hge].
  - rewrite lookup_app_l in Hj by (by rewrite length_layout).
    destruct (Hc0 _ _ _ _ _ Hj Hc) as (? & cn & Hcn & Hp). split; [done|].
    exists cn. split; [by apply lookup_app_l_Some|done].
  - rewrite lookup_app_r, length_layout in Hj by (rewrite length_layout; lia).
    destruct (IH _ _ _ _ Hj Hc) as (? & cn & Hcn & Hp). split; [lia|].
    exists cn. split.
    + rewrite lookup_app_r by (rewrite length_layout; lia).
      rewrite length_layout. by replace (c - b - size c0) with (c - (b + size c0)) by lia.
    + rewrite Hp. f_equal. lia.
Qed.

Lemma layout_children d :
  ∀ base par i n c,
    layout base par d !! i = Some n → c ∈ children n →
    base + i < c ∧
    ∃ cn, layout base par d !! (c - base) = Some cn ∧ Node.parent cn = Some (base + i).
Proof.
  induction d as [l v cs IH] using Encoding.dict_nested_ind; intros base par i n c.
  rewrite layout_unfold. destruct i as [|j]; cbn [lookup list_lookup].
  - intros [= <-]. cbn [children]. intros Hc.
    destruct (child_refs_layouts base _ _ _ Hc) as (Hle & cn & Hcn & Hp).
    split; [lia|]. exists cn. rewrite Nat.add_0_r. split; [|done].
    by replace (c - base) with (S (c - S base)) by lia.
  - intros Hj Hc.
    destruct (layouts_children base _ IH _ _ _ _ Hj Hc) as (Hlt & cn & Hcn & Hp).
    split; [lia|]. exists cn. split.
    + by replace (c - base) with (S (c - S base)) by lia.
    + rewrite Hp. f_equal. lia.
Qed.

End encoding_in_general.

(** ** Editing a document *)

Section editing.
Import Node Encoding Tree.
Implicit Types (self : Tree.t) (w : world) (sel : ref).

(** X9. Adding to an empty document makes the new node the root,
    whatever the location asked for and without looking at the
    selection; the node is selected, the document is dirty, and an
    empty label or value is stored as absent. *)
Theorem add_to_empty where_ label value self w :
  root self = None →
  add where_ label value self w =
    Ok (Tree.mk true (last_path self) (Some (length (store w))) (manifest self)
          (Some (length (store w))),
        with_store
          (store w ++ [Node.mk (none_if_empty label) (none_if_empty value) [] None]) w).
Proof. intros Hroot. unfold add, _add, is_empty. cbn. by rewrite Hroot. Qed.

Lemma add_to_empty_witness :
  add SIBLING (Some "TP") (Some "") (Tree.mk false "" None DEFAULT_MANIFEST None)
      (World [] None ∅) =
  Ok (Tree.mk true "" (Some 0) DEFAULT_MANIFEST (Some 0),
      World [Node.mk (Some "TP") None [] None] None ∅).
Proof.
  exact (add_to_empty SIBLING (Some "TP") (Some "")
           (Tree.mk false "" None DEFAULT_MANIFEST None) (World [] None ∅) eq_refl).
Defined.

(** X10. In a document with a root, adding at [CHILD] appends the new
    node after the children of the selection, with the selection as its
    parent; the new node becomes the selection and the document dirty;
    nothing else changes. *)
Theorem add_child_of_selection label value self w r sel sn :
  root self = Some r → selection self = Some sel → store w !! sel = Some sn →
  add CHILD label value self w =
    Ok (Tree.mk true (last_path self) (Some (length (store w))) (manifest self) (root self),
        with_store
          (<[sel := set_children (children sn ++ [length (store w)]) sn]> (store w)
             ++ [Node.mk (none_if_empty label) (none_if_empty value) [] (Some sel)]) w).
Proof.
  intros Hroot Hsel Hs. unfold add, _add, is_empty. cbn. rewrite Hroot, Hsel.
  pose proof (lookup_lt_Some _ _ _ Hs) as Hlt.
  erewrite add_child_Ok;
    [|by apply lookup_app_l_Some|by apply list_lookup_middle|done|lia].
  cbn. rewrite insert_app_l by done.
  rewrite insert_middle by (by rewrite length_insert). by rewrite ?Hroot.
Qed.

Lemma add_child_of_selection_witness :
  add CHILD (Some "DP") None (Tree.mk false "" (Some 0) DEFAULT_MANIFEST (Some 0))
      (World [Node.mk (Some "TP") None [] None] None ∅) =
  Ok (Tree.mk true "" (Some 1) DEFAULT_MANIFEST (Some 0),
      World [Node.mk (Some "TP") None [1] None; Node.mk (Some "DP") None [] (Some 0)]
            None ∅).
Proof.
  exact (add_child_of_selection (Some "DP") None
           (Tree.mk false "" (Some 0) DEFAULT_MANIFEST (Some 0))
           (World [Node.mk (Some "TP") None [] None] None ∅)
           0 0 (Node.mk (Some "TP") None [] None) eq_refl eq_refl eq_refl).
Defined.

(** X11. Adding at [SIBLING] with a selection other than the root
    appends the new node after the children of the selection's parent. *)
Theorem add_sibling_of_selection label value self w sel sn p pn :
  root self ≠ None → root self ≠ Some sel → selection self = Some sel →
  store w !! sel = Some sn → parent sn = Some p → store w !! p = Some pn →
  add SIBLING label value self w =
    Ok (Tree.mk true (last_path self) (Some (length (store w))) (manifest self) (root self),
        with_store
          (<[p := set_children (children pn ++ [length (store w)]) pn]> (store w)
             ++ [Node.mk (none_if_empty label) (none_if_empty value) [] (Some p)]) w).
Proof.
  intros Hroot Hne Hsel Hs Hsp Hp. unfold add, _add, is_empty, same. cbn. rewrite Hsel.
  destruct (root self) as [r|] eqn:Hr; [|done].
  rewrite bool_decide_eq_false_2 by done.
  erewrite parent_of_Some; [|by apply lookup_app_l_Some|done]. cbn.
  pose proof (lookup_lt_Some _ _ _ Hp) as Hlt.
  erewrite add_child_Ok;
    [|by apply lookup_app_l_Some|by apply list_lookup_middle|done|lia].
  cbn. rewrite insert_app_l by done.
  rewrite insert_middle by (by rewrite length_insert). by rewrite ?Hr.
Qed.

Lemma add_sibling_of_selection_witness :
  add SIBLING (Some "T") None (Tree.mk false "" (Some 1) DEFAULT_MANIFEST (Some 0))
      (World [Node.mk (Some "TP") None [1] None; Node.mk (Some "DP") None [] (Some 0)]
             None ∅) =
  Ok (Tree.mk true "" (Some 2) DEFAULT_MANIFEST (Some 0),
      World [Node.mk (Some "TP") None [1; 2] None; Node.mk (Some "DP") None [] (Some 0);
             Node.mk (Some "T") None [] (Some 0)] None ∅).
Proof.
  exact (add_sibling_of_selection (Some "T") None
           (Tree.mk false "" (Some 1) DEFAULT_MANIFEST (Some 0))
           (World [Node.mk (Some "TP") None [1] None; Node.mk (Some "DP") None [] (Some 0)]
                  None ∅)
           1 (Node.mk (Some "DP") None [] (Some 0)) 0 (Node.mk (Some "TP") None [1] None)
           ltac:(discriminate) ltac:(discriminate) eq_refl eq_refl eq_refl eq_refl).
Defined.

(** X12. Adding at [PARENT] with the root selected puts the new node
    above the root: it becomes the root, with the old root as its only
    child, and the old root gets it as parent. *)
Theorem add_parent_of_root label value self w r rn :
  root self = Some r → selection self = Some r →
  store w !! r = Some rn → parent rn = None →
  add PARENT label value self w =
    Ok (Tree.mk true (last_path self) (Some (length (store w))) (manifest self)
          (Some (length (store w))),
        with_store
          (<[r := set_parent (Some (length (store w))) rn]> (store w)
             ++ [Node.mk (none_if_empty label) (none_if_empty value) [r] None]) w).
Proof.
  intros Hroot Hsel Hr Hp. unfold add, _add, is_empty, same. cbn. rewrite Hroot, Hsel.
  rewrite bool_decide_eq_true_2 by done.
  pose proof (lookup_lt_Some _ _ _ Hr) as Hlt.
  erewrite add_child_Ok;
    [|by apply list_lookup_middle|by apply lookup_app_l_Some|done|lia].
  cbn. rewrite insert_middle by done. by rewrite insert_app_l.
Qed.

Lemma add_parent_of_root_witness :
  add PARENT (Some "CP") None (Tree.mk false "" (Some 0) DEFAULT_MANIFEST (Some 0))
      (World [Node.mk (Some "TP") None [] None] None ∅) =
  Ok (Tree.mk true "" (Some 1) DEFAULT_MANIFEST (Some 1),
      World [Node.mk (Some "TP") None [] (Some 1); Node.mk (Some "CP") None [0] None]
            None ∅).
Proof.
  exact (add_parent_of_root (Some "CP") None
           (Tree.mk false "" (Some 0) DEFAULT_MANIFEST (Some 0))
           (World [Node.mk (Some "TP") None [] None] None ∅)
           0 (Node.mk (Some "TP") None [] None) eq_refl eq_refl eq_refl eq_refl).
Defined.

(** X13. In a document with a root, adding without a selection raises
    [SelectionError] at every location, and adding a sibling of the root
    raises [TreemendousError]. *)
Theorem add_rejected label value self w r :
  root self = Some r →
  (selection self = None →
     ∀ where_, add where_ label value self w = Raise (SelectionError "No selection!")) ∧
  (selection self = Some r →
     add SIBLING label value self w =
       Raise (TreemendousError "The root cannot have siblings!")).
Proof.
  intros Hroot. unfold add, _add, is_empty, same. cbn. rewrite Hroot. split.
  - intros -> where_. reflexivity.
  - intros ->. by rewrite bool_decide_eq_true_2.
Qed.

Lemma add_rejected_witness :
  add SIBLING (Some "X") None (Tree.mk false "" (Some 0) DEFAULT_MANIFEST (Some 0))
      (World [Node.mk (Some "TP") None [] None] None ∅) =
  Raise (TreemendousError "The root cannot have siblings!").
Proof.
  exact (proj2 (add_rejected (Some "X") None
                  (Tree.mk false "" (Some 0) DEFAULT_MANIFEST (Some 0))
                  (World [Node.mk (Some "TP") None [] None] None ∅) 0 eq_refl) eq_refl).
Defined.

(** X14. Copying the selection and pasting at [CHILD] succeeds: the
    new subtree is built from new nodes and is the same tree as the
    selection was, it is appended after the selection's children, its
    root is selected, the document is dirty and the pasteboard still
    holds the record. *)
Theorem copy_then_paste_child depth self w r sel sn d :
  root self = Some r → selection self = Some sel → store w !! sel = Some sn →
  to_dict depth sel (store w) = Ok d →
  let new := length (store w) in
  let h' := <[sel := set_children (children sn ++ [new]) sn]> (store w)
              ++ layout new (Some sel) d in
  ('(t, w1) ← copy depth self w; paste CHILD t w1) =
    Ok (Tree.mk true (last_path self) (Some new) (manifest self) (root self),
        World h' (Some d) (files w)) ∧
  same_tree (store w) h' sel new.
Proof.
  intros Hroot Hsel Hs Hd new h'. pose proof (to_dict_encodes _ _ _ _ Hd) as Henc.
  pose proof (lookup_lt_Some _ _ _ Hs) as Hlt. split.
  - assert (falsy (Some d) = false) as Hfalsy by (by inversion Henc).
    unfold copy. rewrite Hsel, Hd.
    change (Ok ?x ≫= ?f) with (f x). cbv beta iota.
    change (mret ?x ≫= ?f) with (f x). cbv beta iota.
    unfold paste. cbn [_pasteboard store]. rewrite Hfalsy, from_dict_layout.
    change (Ok ?x ≫= ?f) with (f x). cbv beta iota.
    unfold _add, is_empty. cbn. rewrite Hroot, Hsel.
    destruct (layout_head (length (store w)) d) as (n0 & rest & Hlay & Hpar).
    erewrite add_child_Ok;
      [|by apply lookup_app_l_Some|rewrite Hlay; by apply list_lookup_middle|done|lia].
    cbn. rewrite insert_app_l by done. rewrite Hlay.
    rewrite insert_middle by (by rewrite length_insert).
    subst h' new. by rewrite (layout_parent _ (Some sel)), Hlay, Hroot.
  - eapply encodes_same_tree; [done|].
    pose proof (encodes_layout d
                  (<[sel := set_children (children sn ++ [new]) sn]> (store w)) [] (Some sel))
      as Hnew.
    rewrite app_nil_r, length_insert, (encodes_norm _ _ _ Henc) in Hnew. exact Hnew.
Qed.

Lemma copy_then_paste_child_witness :
  ('(t, w1) ← copy 2 (Tree.mk false "" (Some 1) DEFAULT_MANIFEST (Some 0))
               (World [ Node.mk (Some "TP") None [1] None;
                        Node.mk (Some "DP") None [] (Some 0) ] None ∅);
   paste CHILD t w1) =
    Ok (Tree.mk true "" (Some 2) DEFAULT_MANIFEST (Some 0),
        World [ Node.mk (Some "TP") None [1] None;
                Node.mk (Some "DP") None [2] (Some 0);
                Node.mk (Some "DP") None [] (Some 1) ]
              (Some (Dict (Some (Some "DP")) (Some None) (Some []))) ∅) ∧
  same_tree [ Node.mk (Some "TP") None [1] None; Node.mk (Some "DP") None [] (Some 0) ]
            [ Node.mk (Some "TP") None [1] None;
              Node.mk (Some "DP") None [2] (Some 0);
              Node.mk (Some "DP") None [] (Some 1) ] 1 2.
Proof.
  exact (copy_then_paste_child 2 (Tree.mk false "" (Some 1) DEFAULT_MANIFEST (Some 0))
           (World [ Node.mk (Some "TP") None [1] None;
                    Node.mk (Some "DP") None [] (Some 0) ] None ∅)
           0 1 (Node.mk (Some "DP") None [] (Some 0))
           (Dict (Some (Some "DP")) (Some None) (Some []))
           eq_refl eq_refl eq_refl eq_refl).
Defined.

(** Pasting with nothing on the pasteboard (unset, or a record
    without keys) raises [SelectionError] and builds no node. *)
Lemma paste_nothing where_ self w :
  falsy (_pasteboard w) = true →
  paste where_ self w = Raise (SelectionError "Pasteboard is empty!").
Proof. unfold paste. intros H. destruct (_pasteboard w); [by rewrite H|done]. Qed.

(** X15. [delete] without a selection raises [SelectionError].  With
    the root selected it empties the document and marks it dirty; the
    node objects are untouched and the selection still names the
    deleted root. *)
Theorem delete_root self w :
  (selection self = None → Tree.delete self w = Raise (SelectionError "No selection!")) ∧
  (∀ sel, selection self = Some sel → root self = Some sel →
     Tree.delete self w =
       Ok (Tree.mk true (last_path self) (Some sel) (manifest self) None, w)).
Proof.
  unfold Tree.delete, same. split.
  - by intros ->.
  - intros sel -> ->. by rewrite bool_decide_eq_true_2.
Qed.

Lemma delete_root_witness :
  Tree.delete (Tree.mk false "" (Some 0) DEFAULT_MANIFEST (Some 0))
    (World [Node.mk (Some "TP") None [] None] None ∅) =
  Ok (Tree.mk true "" (Some 0) DEFAULT_MANIFEST None,
      World [Node.mk (Some "TP") None [] None] None ∅).
Proof.
  exact (proj2 (delete_root (Tree.mk false "" (Some 0) DEFAULT_MANIFEST (Some 0))
                  (World [Node.mk (Some "TP") None [] None] None ∅)) 0 eq_refl eq_refl).
Defined.

(** X16. [delete] with a selection other than the root moves the
    selection to the parent, removes the node from the parent's
    children, keeping the order of the others, and marks the document
    dirty. *)
Theorem delete_selection self w sel sn p pn pre post :
  selection self = Some sel → root self ≠ Some sel →
  store w !! sel = Some sn → parent sn = Some p → store w !! p = Some pn →
  children pn = pre ++ sel :: post → sel ∉ pre →
  Tree.delete self w =
    Ok (Tree.mk true (last_path self) (Some p) (manifest self) (root self),
        with_store (<[p := set_children (pre ++ post) pn]> (store w)) w).
Proof.
  intros Hsel Hroot Hs Hsp Hp Hcs Hpre. unfold Tree.delete, same. rewrite Hsel.
  rewrite bool_decide_eq_false_2 by congruence.
  rewrite (deref_Some _ _ _ Hs). cbn. unfold Node.delete.
  rewrite (deref_Some _ _ _ Hs). cbn. rewrite Hsp, (deref_Some _ _ _ Hp). cbn.
  rewrite Hcs, remove_middle by done. cbn.
  by rewrite (assign_Some _ _ _ _ Hp).
Qed.

Lemma delete_selection_witness :
  Tree.delete (Tree.mk false "" (Some 2) DEFAULT_MANIFEST (Some 0))
    (World [ Node.mk (Some "TP") None [1; 2; 3] None;
             Node.mk (Some "A") None [] (Some 0);
             Node.mk (Some "B") None [] (Some 0);
             Node.mk (Some "C") None [] (Some 0) ] None ∅) =
  Ok (Tree.mk true "" (Some 0) DEFAULT_MANIFEST (Some 0),
      World [ Node.mk (Some "TP") None [1; 3] None;
              Node.mk (Some "A") None [] (Some 0);
              Node.mk (Some "B") None [] (Some 0);
              Node.mk (Some "C") None [] (Some 0) ] None ∅).
Proof.
  apply (delete_selection (Tree.mk false "" (Some 2) DEFAULT_MANIFEST (Some 0))
           (World [ Node.mk (Some "TP") None [1; 2; 3] None;
                    Node.mk (Some "A") None [] (Some 0);
                    Node.mk (Some "B") None [] (Some 0);
                    Node.mk (Some "C") None [] (Some 0) ] None ∅)
           2 (Node.mk (Some "B") None [] (Some 0)) 0
           (Node.mk (Some "TP") None [1; 2; 3] None) [1] [3]);
    try reflexivity; [discriminate|].
  by intros [[=]|[]%elem_of_nil]%elem_of_cons.
Defined.

End editing.

(** ** Editing fields and reordering *)

Section fields_and_order.
Import Node Tree.
Implicit Types (self : Tree.t) (w : world) (sel : ref).

(** X17. [edit] without arguments does nothing, selection or not.  With
    an argument and no selection it raises [AttributeError].  With a
    selection it sets each field it is given (an empty string clears the
    field), leaves the other as it is, and marks the document dirty,
    also when the value given is the one the field had. *)
Theorem edit_fields label value self w :
  edit None None self w = Ok (self, w) ∧
  (selection self = None → is_Some label ∨ is_Some value →
     edit label value self w = Raise AttributeError) ∧
  (∀ sel n, selection self = Some sel → store w !! sel = Some n →
     is_Some label ∨ is_Some value →
     edit label value self w =
       Ok (set_dirty self,
           with_store
             (<[sel := Node.mk
                         (match label with Some _ => none_if_empty label | None => Node.label n end)
                         (match value with Some _ => none_if_empty value | None => Node.value n end)
                         (children n) (parent n)]> (store w)) w)).
Proof.
  split; [done|]. split.
  - intros Hsel H. unfold edit. destruct label as [l|], value as [v|]; cbn; rewrite ?Hsel; try done.
    by destruct H as [[]|[]].
  - intros sel n Hsel Hn H. unfold edit.
    destruct label as [l|], value as [v|]; cbn [fst snd mbind result_bind mret result_ret];
      rewrite ?Hsel, ?(assign_Some _ _ _ _ Hn);
      cbn [fst snd mbind result_bind mret result_ret set_dirty selection store with_store];
      rewrite ?Hsel.
    + erewrite assign_Some by (by eapply lookup_insert_same).
      by rewrite list_insert_insert_eq.
    + done.
    + done.
    + by destruct H as [[]|[]].
Qed.

Lemma edit_fields_witness :
  edit (Some "") (Some "the") (Tree.mk false "" (Some 0) DEFAULT_MANIFEST (Some 0))
    (World [Node.mk (Some "D") (Some "the") [] None] None ∅) =
  Ok (Tree.mk true "" (Some 0) DEFAULT_MANIFEST (Some 0),
      World [Node.mk None (Some "the") [] None] None ∅).
Proof.
  exact (proj2 (proj2 (edit_fields (Some "") (Some "the")
                         (Tree.mk false "" (Some 0) DEFAULT_MANIFEST (Some 0))
                         (World [Node.mk (Some "D") (Some "the") [] None] None ∅)))
           0 (Node.mk (Some "D") (Some "the") [] None) eq_refl eq_refl
           (or_introl (ex_intro _ "" eq_refl))).
Defined.

Lemma index_Ok `{EqDecision A} (x : A) (l : list A) (i : nat) :
  index x l = Ok i → l !! i = Some x.
Proof.
  revert i. induction l as [|y l IH]; intros i; cbn [index]; [done|].
  destruct (decide (y = x)) as [->|]; [by intros [= <-]|].
  destruct (index x l) as [j|]; [|done]. cbn. intros [= <-]. by apply IH.
Qed.

Lemma insert_at_Permutation {A} (i : Z) (x : A) (l : list A) : insert_at i x l ≡ₚ x :: l.
Proof.
  unfold insert_at. rewrite <- Permutation_middle. by rewrite take_drop.
Qed.

(** X18. Moving never loses, duplicates or invents a child: when
    [_shift] succeeds, in either direction and at either end, the
    children of the selection's parent are a permutation of what they
    were, the document is dirty, and nothing else has changed. *)
Theorem _shift_permutes direction self w self' w' :
  _shift direction self w = Ok (self', w') →
  ∃ sel sn p pn cs,
    selection self = Some sel ∧ store w !! sel = Some sn ∧ parent sn = Some p ∧
    store w !! p = Some pn ∧
    cs ≡ₚ children pn ∧
    self' = set_dirty self ∧
    w' = with_store (<[p := set_children cs pn]> (store w)) w.
Proof.
  unfold _shift. destruct (selection self) as [sel|] eqn:Hsel; [|done].
  destruct (same (Some sel) (root self)); [done|]. unfold parent_of, deref, assign, deref.
  destruct (store w !! sel) as [sn|] eqn:Hs; [|done]. cbn.
  destruct (parent sn) as [p|] eqn:Hsp; [|done]. cbn.
  destruct (store w !! p) as [pn|] eqn:Hp; [|done]. cbn.
  destruct (index sel (children pn)) as [old|] eqn:Hold; [|done]. cbn.
  apply index_Ok in Hold. unfold pop_at. rewrite Hold. cbn. intros [= <- <-].
  exists sel, sn, p, pn, (insert_at (Z.of_nat old + direction) sel (base.delete old (children pn))).
  repeat split; try done.
  rewrite insert_at_Permutation. symmetry. by apply delete_Permutation.
Qed.

Lemma _shift_permutes_witness :
  ∃ sel sn p pn cs,
    selection (Tree.mk false "" (Some 1) DEFAULT_MANIFEST (Some 0)) = Some sel ∧
    [ Node.mk (Some "TP") None [1; 2; 3] None; Node.mk (Some "A") None [] (Some 0);
      Node.mk (Some "B") None [] (Some 0); Node.mk (Some "C") None [] (Some 0) ] !! sel
      = Some sn ∧
    parent sn = Some p ∧
    [ Node.mk (Some "TP") None [1; 2; 3] None; Node.mk (Some "A") None [] (Some 0);
      Node.mk (Some "B") None [] (Some 0); Node.mk (Some "C") None [] (Some 0) ] !! p
      = Some pn ∧
    cs ≡ₚ children pn ∧
    Tree.mk true "" (Some 1) DEFAULT_MANIFEST (Some 0)
      = set_dirty (Tree.mk false "" (Some 1) DEFAULT_MANIFEST (Some 0)) ∧
    World [ Node.mk (Some "TP") None [2; 1; 3] None; Node.mk (Some "A") None [] (Some 0);
            Node.mk (Some "B") None [] (Some 0); Node.mk (Some "C") None [] (Some 0) ]
          None ∅
      = with_store
          (<[p := set_children cs pn]>
             [ Node.mk (Some "TP") None [1; 2; 3] None; Node.mk (Some "A") None [] (Some 0);
               Node.mk (Some "B") None [] (Some 0); Node.mk (Some "C") None [] (Some 0) ])
          (World [ Node.mk (Some "TP") None [1; 2; 3] None;
                   Node.mk (Some "A") None [] (Some 0);
                   Node.mk (Some "B") None [] (Some 0);
                   Node.mk (Some "C") None [] (Some 0) ] None ∅).
Proof.
  exact (_shift_permutes (-1) (Tree.mk false "" (Some 1) DEFAULT_MANIFEST (Some 0))
           (World [ Node.mk (Some "TP") None [1; 2; 3] None;
                    Node.mk (Some "A") None [] (Some 0);
                    Node.mk (Some "B") None [] (Some 0);
                    Node.mk (Some "C") None [] (Some 0) ] None ∅)
           (Tree.mk true "" (Some 1) DEFAULT_MANIFEST (Some 0))
           (World [ Node.mk (Some "TP") None [2; 1; 3] None;
                    Node.mk (Some "A") None [] (Some 0);
                    Node.mk (Some "B") None [] (Some 0);
                    Node.mk (Some "C") None [] (Some 0) ] None ∅)
           eq_refl).
Defined.

(** X19. For a selection that is neither the first child nor its own
    parent, [move_up] followed by [move_down] restores the order of the
    children: node objects, pasteboard and files are exactly as before
    and only the dirty flag is set. *)
Theorem move_up_then_down self w sel sn p pn pre a post :
  selection self = Some sel → root self ≠ Some sel →
  store w !! sel = Some sn → parent sn = Some p → store w !! p = Some pn →
  children pn = pre ++ a :: sel :: post → sel ∉ pre → sel ≠ a → sel ≠ p →
  ('(t, w1) ← move_up self w; move_down t w1) = Ok (set_dirty self, w).
Proof.
  intros Hsel Hroot Hs Hsp Hp Hcs Hpre Hne Hsp'.
  rewrite (move_up_swaps _ _ _ _ _ _ _ _ _ Hsel Hroot Hs Hsp Hp Hcs Hpre Hne).
  change (Ok ?x ≫= ?f) with (f x). cbv beta iota.
  erewrite (move_down_swaps _ _ sel sn p _ pre a post);
    [|done|done|cbn; by rewrite list_lookup_insert_ne
     |done|cbn; by eapply lookup_insert_same|done|done].
  cbn. rewrite list_insert_insert_eq.
  replace (set_children (pre ++ a :: sel :: post) _) with pn
    by (destruct pn; cbn in *; by subst).
  rewrite list_insert_id by done. by destruct w.
Qed.

Lemma move_up_then_down_witness :
  ('(t, w1) ← move_up (Tree.mk false "" (Some 2) DEFAULT_MANIFEST (Some 0))
               (World [ Node.mk (Some "TP") None [1; 2; 3] None;
                        Node.mk (Some "A") None [] (Some 0);
                        Node.mk (Some "B") None [] (Some 0);
                        Node.mk (Some "C") None [] (Some 0) ] None ∅);
   move_down t w1) =
  Ok (Tree.mk true "" (Some 2) DEFAULT_MANIFEST (Some 0),
      World [ Node.mk (Some "TP") None [1; 2; 3] None;
              Node.mk (Some "A") None [] (Some 0);
              Node.mk (Some "B") None [] (Some 0);
              Node.mk (Some "C") None [] (Some 0) ] None ∅).
Proof.
  apply (move_up_then_down (Tree.mk false "" (Some 2) DEFAULT_MANIFEST (Some 0))
           (World [ Node.mk (Some "TP") None [1; 2; 3] None;
                    Node.mk (Some "A") None [] (Some 0);
                    Node.mk (Some "B") None [] (Some 0);
                    Node.mk (Some "C") None [] (Some 0) ] None ∅)
           2 (Node.mk (Some "B") None [] (Some 0)) 0
           (Node.mk (Some "TP") None [1; 2; 3] None) [] 1 [3]);
    try reflexivity; try lia; [discriminate|apply not_elem_of_nil].
Defined.

End fields_and_order.

(** ** Saving and loading *)

Section saving_and_loading.
Import Node Encoding Tree.
Implicit Types (self : Tree.t) (w : world) (m : gmap string string).

Lemma target_path_nonempty path self target :
  target_path path self = Ok target → target ≠ "".
Proof.
  unfold target_path. destruct path as [[|c s]|]; destruct (last_path self) eqn:Hl;
    try done; by intros [= <-].
Qed.

Lemma init_unfold path w :
  path ≠ "" →
  __init__ (Some path) w =
    match read path (Tree.mk false path None DEFAULT_MANIFEST None) w with
    | Raise KeyError | Raise BadZipFile => Raise (IncompatibleFormatError Unreadable)
    | other => other
    end.
Proof. by destruct path. Qed.

Lemma union_default_version m v :
  m !! "version" = Some v → m ∪ DEFAULT_MANIFEST = m.
Proof.
  intros Hv. apply map_eq. intros k. unfold DEFAULT_MANIFEST.
  destruct (decide (k = "version")) as [->|Hk].
  - rewrite Hv. by apply lookup_union_Some_l.
  - apply lookup_union_l. by rewrite lookup_singleton_ne.
Qed.

(** X20. Saving a document to the container format and loading the file
    again gives the document back: the same manifest (notes included),
    the same tree built from new nodes, no selection, not dirty, and the
    path remembered.  The save itself clears the dirty flag, remembers
    the path, and changes neither the nodes nor the pasteboard nor any
    other file. *)
Theorem save_then_load graphviz_write depth path self w r d target v major :
  root self = Some r → to_dict depth r (store w) = Ok d →
  target_path path self = Ok target →
  endswith target ".gv" = false → endswith target ".png" = false →
  manifest self !! "version" = Some v → int (before_dot v) = Ok major → (major ≤ 1)%Z →
  let w1 := World (store w) (_pasteboard w)
              (<[target := ZipFile (Zip (Some (manifest self)) (Some d))]> (files w)) in
  let h2 := store w ++ layout (length (store w)) None d in
  save graphviz_write depth path self w =
    Ok (Tree.mk false target (selection self) (manifest self) (root self), w1) ∧
  __init__ (Some target) w1 =
    Ok (Tree.mk false target None (manifest self) (Some (length (store w))),
        with_store h2 w1) ∧
  same_tree (store w) h2 r (length (store w)).
Proof.
  intros Hroot Hd Htarget Hgv Hpng Hv Hint Hle w1 h2. split; [|split].
  - unfold save. rewrite Htarget. cbn. by rewrite Hgv, Hpng, Hroot, Hd.
  - rewrite init_unfold by (by eapply target_path_nonempty).
    erewrite read_manifest by (subst w1; cbn; apply lookup_insert_eq).
    cbn [dirty last_path selection manifest root]. cbv zeta.
    rewrite my_major, (union_default_version _ _ Hv), Hv. cbn. rewrite Hint. cbn.
    rewrite (proj2 (Z.ltb_ge _ _) Hle). cbn. by rewrite from_dict_layout.
  - pose proof (to_dict_encodes _ _ _ _ Hd) as Henc.
    eapply encodes_same_tree; [done|].
    pose proof (encodes_layout d (store w) [] None) as Hnew.
    by rewrite app_nil_r, (encodes_norm _ _ _ Henc) in Hnew.
Qed.

Lemma save_then_load_witness :
  save (λ _ self w, Ok (self, w)) 3 (Some "a.treemendous")
    (Tree.mk true "" (Some 0) (<["notes" := "a cactus"]> DEFAULT_MANIFEST) (Some 0))
    (World [Node.mk (Some "N") (Some "cactus") [] None] None ∅) =
    Ok (Tree.mk false "a.treemendous" (Some 0) (<["notes" := "a cactus"]> DEFAULT_MANIFEST)
          (Some 0),
        World [Node.mk (Some "N") (Some "cactus") [] None] None
          (<["a.treemendous" :=
               ZipFile (Zip (Some (<["notes" := "a cactus"]> DEFAULT_MANIFEST))
                          (Some (Dict (Some (Some "N")) (Some (Some "cactus")) (Some []))))]>
             ∅)) ∧
  __init__ (Some "a.treemendous")
    (World [Node.mk (Some "N") (Some "cactus") [] None] None
       (<["a.treemendous" :=
            ZipFile (Zip (Some (<["notes" := "a cactus"]> DEFAULT_MANIFEST))
                       (Some (Dict (Some (Some "N")) (Some (Some "cactus")) (Some []))))]>
          ∅)) =
    Ok (Tree.mk false "a.treemendous" None (<["notes" := "a cactus"]> DEFAULT_MANIFEST)
          (Some 1),
        World [Node.mk (Some "N") (Some "cactus") [] None;
               Node.mk (Some "N") (Some "cactus") [] None] None
          (<["a.treemendous" :=
               ZipFile (Zip (Some (<["notes" := "a cactus"]> DEFAULT_MANIFEST))
                          (Some (Dict (Some (Some "N")) (Some (Some "cactus")) (Some []))))]>
             ∅)) ∧
  same_tree [Node.mk (Some "N") (Some "cactus") [] None]
            [Node.mk (Some "N") (Some "cactus") [] None;
             Node.mk (Some "N") (Some "cactus") [] None] 0 1.
Proof.
  exact (save_then_load (λ _ self w, Ok (self, w)) 3 (Some "a.treemendous")
           (Tree.mk true "" (Some 0) (<["notes" := "a cactus"]> DEFAULT_MANIFEST) (Some 0))
           (World [Node.mk (Some "N") (Some "cactus") [] None] None ∅)
           0 (Dict (Some (Some "N")) (Some (Some "cactus")) (Some []))
           "a.treemendous" "1.0.0rc3" 1%Z
           eq_refl eq_refl eq_refl eq_refl eq_refl eq_refl eq_refl ltac:(lia)).
Defined.

(** X21. Loading what is no container: a path without a file raises
    [FileNotFoundError], which [__init__] lets through; a file that is
    no archive, or an archive without manifest entry, raises
    [IncompatibleFormatError] for an unreadable file. *)
Theorem load_unreadable path w :
  path ≠ "" →
  (files w !! path = None → __init__ (Some path) w = Raise FileNotFoundError) ∧
  (files w !! path = Some NotAZip →
     __init__ (Some path) w = Raise (IncompatibleFormatError Unreadable)) ∧
  (∀ te, files w !! path = Some (ZipFile (Zip None te)) →
     __init__ (Some path) w = Raise (IncompatibleFormatError Unreadable)).
Proof.
  intros Hpath. rewrite init_unfold by done. unfold read, open_zip.
  split; [|split]; [intros ->|intros ->|intros te ->]; done.
Qed.

Lemma load_unreadable_witness :
  __init__ (Some "x.treemendous")
    (World [] None {[ "x.treemendous" := NotAZip ]}) =
  Raise (IncompatibleFormatError Unreadable).
Proof.
  exact (proj1 (proj2 (load_unreadable "x.treemendous"
                         (World [] None {[ "x.treemendous" := NotAZip ]})
                         ltac:(discriminate))) eq_refl).
Defined.



(** X23. [save] without a path, on a document that was never saved or
    loaded, raises [SaveError]; saving a document without root to the
    container format raises [AttributeError]. *)
Theorem save_rejected graphviz_write depth self w :
  (last_path self = "" →
     save graphviz_write depth None self w = Raise (SaveError "No last path") ∧
     save graphviz_write depth (Some "") self w = Raise (SaveError "No last path")) ∧
  (∀ path target,
     root self = None → target_path path self = Ok target →
     endswith target ".gv" = false → endswith target ".png" = false →
     save graphviz_write depth path self w = Raise AttributeError).
Proof.
  split.
  - intros Hl. unfold save, target_path. by rewrite Hl.
  - intros path target Hroot Htarget Hgv Hpng. unfold save. rewrite Htarget. cbn.
    by rewrite Hgv, Hpng, Hroot.
Qed.

Lemma save_rejected_witness :
  save (λ _ self w, Ok (self, w)) 3 (Some "a.treemendous")
    (Tree.mk false "" None DEFAULT_MANIFEST None) (World [] None ∅) =
  Raise AttributeError.
Proof.
  exact (proj2 (save_rejected (λ _ self w, Ok (self, w)) 3
                  (Tree.mk false "" None DEFAULT_MANIFEST None) (World [] None ∅))
           (Some "a.treemendous") "a.treemendous" eq_refl eq_refl eq_refl eq_refl).
Defined.

(** X24. The notes are kept in the manifest: reading them back gives
    what was set, "" when nothing was; setting them marks the document
    dirty and leaves the version, the tree and the selection alone. *)
Theorem notes_set_get new self :
  notes (set_notes new self) = new ∧
  dirty (set_notes new self) = true ∧
  manifest (set_notes new self) !! "version" = manifest self !! "version" ∧
  root (set_notes new self) = root self ∧
  selection (set_notes new self) = selection self ∧
  (manifest self !! "notes" = None → notes self = "").
Proof.
  unfold notes, set_notes. cbn. rewrite lookup_insert_eq, lookup_insert_ne by done.
  repeat split. by intros ->.
Qed.

Lemma notes_set_get_witness :
  notes (set_notes "a cactus" (Tree.mk false "" None DEFAULT_MANIFEST None)) = "a cactus" ∧
  notes (Tree.mk false "" None DEFAULT_MANIFEST None) = "".
Proof.
  split.
  - exact (proj1 (notes_set_get "a cactus" (Tree.mk false "" None DEFAULT_MANIFEST None))).
  - apply (notes_set_get "" (Tree.mk false "" None DEFAULT_MANIFEST None)). reflexivity.
Defined.

End saving_and_loading.

(** ** Identifiers and display strings *)

Section identifiers.
Import Graphviz.
Implicit Types (names X : gset string) (name res : string).

Lemma pretty_N_go_nonempty (x : N) :
  ∀ s, s ≠ "" → pretty_N_go x s ≠ "".
Proof.
  induction (N.lt_wf_0 x) as [x _ IH]. intros s Hs.
  destruct (decide (x = 0%N)) as [->|Hx]; [by rewrite pretty_N_go_0|].
  rewrite pretty_N_go_step by lia. apply IH; [apply N.div_lt; lia|done].
Qed.

Lemma pretty_nat_nonempty (k : nat) : pretty k ≠ "".
Proof.
  unfold pretty, pretty_nat, pretty, pretty_N.
  destruct (decide (N.of_nat k = 0%N)); [done|].
  rewrite pretty_N_go_step by lia. by apply pretty_N_go_nonempty.
Qed.

Lemma numbered_inj name (j k : nat) : name +:+ pretty j = name +:+ pretty k → j = k.
Proof. intros H. apply (inj (String.append name)) in H. by apply (inj pretty) in H. Qed.

Lemma numbered_ne name (k : nat) : name +:+ pretty k ≠ name.
Proof.
  intros H. apply (pretty_nat_nonempty k), (inj (String.append name)).
  by rewrite H, append_nil_r.
Qed.

(** What the loop returns is not in the set. *)
Lemma until_fresh_sound names name fuel :
  ∀ num res r, until_fresh fuel name num res names = Some r →
    (r ∉ names) ∧ (r = res ∨ ∃ k : nat, r = name +:+ pretty k).
Proof.
  induction fuel as [|fuel IH]; intros num res r; cbn [until_fresh]; [done|].
  destruct (decide (res ∈ names)) as [Hin|Hout].
  - intros H. destruct (IH _ _ _ H) as [? [->|[k ->]]]; eauto.
  - intros [= <-]. eauto.
Qed.

(** The loop ends before the fuel does when there is more fuel than
    names: the candidates are all different, so no more of them than the
    set has names can be taken. *)
Lemma until_fresh_Some names name fuel :
  ∀ num res X,
    size X < fuel →
    (res ∈ names → res ∈ X) →
    (∀ k, num < k → name +:+ pretty k ∈ names → name +:+ pretty k ∈ X) →
    (∀ k, num < k → name +:+ pretty k ≠ res) →
    ∃ r, until_fresh fuel name num res names = Some r.
Proof.
  induction fuel as [|fuel IH]; intros num res X Hsize Hres Hlater Hne; [lia|].
  cbn [until_fresh]. destruct (decide (res ∈ names)) as [Hin|Hout]; [|eauto].
  apply (IH _ _ (X ∖ {[ res ]})).
  - assert (X = {[ res ]} ∪ X ∖ {[ res ]}) as HX
      by (apply union_difference_singleton_L; auto).
    assert (size X = 1 + size (X ∖ {[ res ]})); [|lia].
    rewrite HX at 1. rewrite size_union, size_singleton; [done|].
    apply disjoint_singleton_l, not_elem_of_difference. right. by apply elem_of_singleton.
  - intros H. apply elem_of_difference. split; [apply Hlater; [lia|done]|].
    rewrite not_elem_of_singleton. apply Hne. lia.
  - intros k Hk H. apply elem_of_difference. split; [apply Hlater; [lia|done]|].
    rewrite not_elem_of_singleton. apply Hne. lia.
  - intros k Hk H. apply numbered_inj in H. lia.
Qed.

(** X25. [_fresh_name] comes to an end: with more fuel than the set has
    names it returns, and the name it returns is not empty, was not in
    the set, and has been added to it. *)
Theorem fresh_name_returns fuel name names :
  size names < fuel →
  ∃ res, _fresh_name fuel name names = Some (res, {[ res ]} ∪ names) ∧
         (res ∉ names) ∧ res ≠ "".
Proof.
  intros Hfuel. unfold _fresh_name.
  set (name' := if decide (name = "") then "node" else name).
  assert (name' ≠ "") as Hname by (subst name'; by case_decide).
  destruct (until_fresh_Some names name' fuel 1 name' names Hfuel) as [r Hr]; [done|done|..].
  { intros k _. apply numbered_ne. }
  exists r. rewrite Hr. cbn. split; [done|].
  apply until_fresh_sound in Hr as [? [->|[k ->]]]; split; try done.
  destruct name'; [done|]. by rewrite append_cons.
Qed.

Lemma fresh_name_returns_witness :
  ∃ res, _fresh_name 3 "DP" {[ "DP"; "DP2" ]} = Some (res, {[ res ]} ∪ {[ "DP"; "DP2" ]}) ∧
         (res ∉ ({[ "DP"; "DP2" ]} : gset string)) ∧ res ≠ "".
Proof.
  apply (fresh_name_returns 3 "DP" {[ "DP"; "DP2" ]}).
  rewrite size_union, !size_singleton; [lia|].
  apply disjoint_singleton_l, not_elem_of_singleton. discriminate.
Defined.

(** X26. Whenever [_fresh_name] returns, the name is new and the set
    has grown by exactly that name; so the names returned by two calls
    in a row on the growing set always differ, also for the same
    wanted name. *)
Theorem fresh_names_differ fuel1 fuel2 name1 name2 names res1 names1 res2 names2 :
  _fresh_name fuel1 name1 names = Some (res1, names1) →
  _fresh_name fuel2 name2 names1 = Some (res2, names2) →
  (res1 ∉ names) ∧ res1 ≠ res2 ∧ names2 = {[ res2 ]} ∪ ({[ res1 ]} ∪ names).
Proof.
  unfold _fresh_name. intros H1 H2.
  destruct (until_fresh fuel1 _ _ _ names) as [r1|] eqn:Hr1; [|done].
  injection H1 as <- <-.
  destruct (until_fresh fuel2 _ _ _ _) as [r2|] eqn:Hr2; [|done].
  injection H2 as <- <-.
  apply until_fresh_sound in Hr1 as [? _]. apply until_fresh_sound in Hr2 as [? _].
  split; [done|]. split; [|done].
  intros ->. match goal with H : _ ∉ _ ∪ _ |- _ => apply H end.
  apply elem_of_union_l. by apply elem_of_singleton.
Qed.

Lemma fresh_names_differ_witness :
  ("DP" ∉ (∅ : gset string)) ∧ "DP" ≠ "DP2" ∧
  ({[ "DP2" ]} ∪ ({[ "DP" ]} ∪ ∅) : gset string) = {[ "DP2" ]} ∪ ({[ "DP" ]} ∪ ∅).
Proof.
  exact (fresh_names_differ 1 2 "DP" "DP" ∅ "DP" ({[ "DP" ]} ∪ ∅) "DP2"
           ({[ "DP2" ]} ∪ ({[ "DP" ]} ∪ ∅)) eq_refl eq_refl).
Defined.

(** A wanted name that is not taken is returned as it is, and the
    empty name stands for "node". *)
Lemma fresh_name_unused fuel name names :
  (name ≠ "" → name ∉ names →
     _fresh_name (S fuel) name names = Some (name, {[ name ]} ∪ names)) ∧
  ("node" ∉ names →
     _fresh_name (S fuel) "" names = Some ("node", {[ "node" ]} ∪ names)).
Proof.
  unfold _fresh_name. split.
  - intros Hne Hout. rewrite decide_False by done. cbn [until_fresh].
    by rewrite decide_False.
  - intros Hout. rewrite decide_True by done. cbn [until_fresh].
    by rewrite decide_False.
Qed.

(** X27. The display string does not tell an empty label from an absent
    one, nor an empty value from an absent one, and does not depend on
    the children or the parent. *)
Theorem repr_ignores_empty UNLABELLED (n : Node.t) :
  Node.__repr__ UNLABELLED n =
  Node.__repr__ UNLABELLED
    (Node.mk (Tree.none_if_empty (Node.label n)) (Tree.none_if_empty (Node.value n)) [] None).
Proof. by destruct n as [[[|??]|] [[|??]|] ??]. Qed.

End identifiers.

(** ** Children know their parent *)

Section consistency.
Import Node Encoding Tree.
Implicit Types (h : list Node.t) (self c : ref).

Lemma remove_subset `{EqDecision A} (x : A) (l l' : list A) :
  remove x l = Ok l' → ∀ y, y ∈ l' → y ∈ l.
Proof.
  revert l'. induction l as [|z l IH]; intros l'; cbn [remove]; [done|].
  destruct (decide (z = x)) as [->|].
  - intros [= <-] y Hy. by apply elem_of_cons; right.
  - destruct (remove x l) as [r|]; [|done]. cbn. intros [= <-] y.
    rewrite !elem_of_cons. intros [->|Hy]; [by left|right; by eapply IH].
Qed.

(** Replacing the children of one node by some of those it had keeps
    the store consistent. *)
Lemma consistent_fewer_children h p pn cs :
  consistent h → h !! p = Some pn → (∀ y, y ∈ cs → y ∈ children pn) →
  consistent (<[p := set_children cs pn]> h).
Proof.
  intros Hh Hp Hcs i n x Hi Hx.
  assert (∃ n0, h !! i = Some n0 ∧ x ∈ children n0) as (n0 & Hi0 & Hx0).
  { destruct (decide (i = p)) as [->|Hne].
    - rewrite (lookup_insert_same _ _ _ _ Hp) in Hi. injection Hi as <-. eauto.
    - rewrite list_lookup_insert_ne in Hi by done. eauto. }
  destruct (Hh _ _ _ Hi0 Hx0) as (xn & Hxn & Hpar).
  destruct (decide (x = p)) as [->|Hne].
  - rewrite (lookup_insert_same _ _ _ _ Hp). eexists. split; [done|].
    cbn. congruence.
  - rewrite list_lookup_insert_ne by done. eauto.
Qed.

(** X28. [add_child] and [delete] keep the store consistent: if every
    node listed as a child has the listing node as its parent, this is
    still so after a parentless node was added as a child of another
    node, and after any [delete] that succeeds. *)
Theorem node_operations_consistent h :
  consistent h →
  (∀ self c sn cn,
     h !! self = Some sn → h !! c = Some cn → parent cn = None → self ≠ c →
     ∃ h', add_child self c h = Ok h' ∧ consistent h') ∧
  (∀ self h', Node.delete self h = Ok h' → consistent h').
Proof.
  intros Hh. split.
  - intros self c sn cn Hs Hc Hp Hne. rewrite (add_child_Ok _ _ _ _ _ Hs Hc Hp Hne).
    eexists. split; [done|].
    set (h1 := <[self := set_children (children sn ++ [c]) sn]> h).
    assert (h1 !! c = Some cn) as Hc1 by (by subst h1; rewrite list_lookup_insert_ne).
    assert (∀ j m, h !! j = Some m → c ∉ children m) as Hnochild.
    { intros j m Hj Hin. destruct (Hh _ _ _ Hj Hin) as (cn' & Hcn' & Hpar). congruence. }
    assert (∀ x xn, x ≠ c → h !! x = Some xn →
              ∃ xn', <[c := set_parent (Some self) cn]> h1 !! x = Some xn' ∧
                     parent xn' = parent xn) as Hkeep.
    { intros x xn Hxc Hx. rewrite list_lookup_insert_ne by done. subst h1.
      destruct (decide (x = self)) as [->|Hxs].
      - rewrite (lookup_insert_same _ _ _ _ Hs). eexists. split; [done|].
        cbn. congruence.
      - rewrite list_lookup_insert_ne by done. eauto. }
    intros i n x Hi Hx. destruct (decide (i = c)) as [->|Hic].
    + rewrite (lookup_insert_same _ _ _ _ Hc1) in Hi. injection Hi as <-. cbn in Hx.
      destruct (Hh _ _ _ Hc Hx) as (xn & Hxn & Hpar).
      assert (x ≠ c) as Hxc by (intros ->; congruence).
      destruct (Hkeep _ _ Hxc Hxn) as (xn' & ? & Hpar'). exists xn'. split; [done|]. congruence.
    + rewrite list_lookup_insert_ne in Hi by done. subst h1.
      destruct (decide (i = self)) as [->|His].
      * rewrite (lookup_insert_same _ _ _ _ Hs) in Hi. injection Hi as <-. cbn in Hx.
        apply elem_of_app in Hx as [Hx|Hx%list_elem_of_singleton].
        -- destruct (Hh _ _ _ Hs Hx) as (xn & Hxn & Hpar).
           assert (x ≠ c) as Hxc by (intros ->; congruence).
           destruct (Hkeep _ _ Hxc Hxn) as (xn' & ? & Hpar'). exists xn'. split; [done|].
           congruence.
        -- subst x. eexists. split; [by eapply lookup_insert_same|done].
      * rewrite list_lookup_insert_ne in Hi by done.
        destruct (Hh _ _ _ Hi Hx) as (xn & Hxn & Hpar).
        assert (x ≠ c) as Hxc by (intros ->; congruence).
        destruct (Hkeep _ _ Hxc Hxn) as (xn' & ? & Hpar'). exists xn'. split; [done|].
        congruence.
  - intros self h'. unfold Node.delete, assign, deref.
    destruct (h !! self) as [sn|]; [|done]. cbn.
    destruct (parent sn) as [p|]; [|done].
    destruct (h !! p) as [pn|] eqn:Hp; [|done]. cbn.
    destruct (remove self (children pn)) as [cs|] eqn:Hcs; [|done]. cbn.
    intros [= <-]. apply consistent_fewer_children; [done|done|].
    by eapply remove_subset.
Qed.

Lemma consistent_example :
  consistent [ Node.mk (Some "TP") None [1] None; Node.mk (Some "DP") None [] (Some 0);
               Node.mk (Some "T") None [] None ].
Proof.
  intros [|[|[|i]]] n c; cbn; try done; intros [= <-]; cbn; try by intros ?%elem_of_nil.
  intros ->%list_elem_of_singleton. eauto.
Qed.

Lemma node_operations_consistent_witness :
  ∃ h', add_child 0 2 [ Node.mk (Some "TP") None [1] None; Node.mk (Some "DP") None [] (Some 0);
                         Node.mk (Some "T") None [] None ] = Ok h' ∧ consistent h'.
Proof.
  apply (proj1 (node_operations_consistent _ consistent_example)
           0 2 (Node.mk (Some "TP") None [1] None) (Node.mk (Some "T") None [] None));
    try reflexivity. lia.
Defined.

(** X29. [from_dict] keeps the store consistent, and in the tree it
    builds every child is a newer node than the node listing it. *)
Theorem from_dict_consistent d h r h' :
  consistent h → from_dict d h = Ok (r, h') →
  consistent h' ∧
  (∀ i n c, length h ≤ i → h' !! i = Some n → c ∈ children n → i < c).
Proof.
  rewrite from_dict_layout. intros Hh [= <- <-]. split.
  - intros i n c Hi Hc. destruct (decide (i < length h)) as [Hlt|Hge].
    + rewrite lookup_app_l in Hi by done.
      destruct (Hh _ _ _ Hi Hc) as (cn & Hcn & Hp). exists cn. split; [|done].
      by apply lookup_app_l_Some.
    + rewrite lookup_app_r in Hi by lia.
      destruct (layout_children _ _ _ _ _ _ Hi Hc) as (Hlt & cn & Hcn & Hp).
      exists cn. split; [rewrite lookup_app_r by lia; done|].
      rewrite Hp. f_equal. lia.
  - intros i n c Hi Hn Hc. rewrite lookup_app_r in Hn by done.
    destruct (layout_children _ _ _ _ _ _ Hn Hc) as (Hlt & _). lia.
Qed.

Lemma from_dict_consistent_witness :
  consistent [ Node.mk (Some "TP") None [1] None; Node.mk (Some "DP") None [] (Some 0);
               Node.mk (Some "T") None [] None; Node.mk (Some "NP") None [4] None;
               Node.mk None None [] (Some 3) ] ∧
  (∀ i n c, 3 ≤ i →
     [ Node.mk (Some "TP") None [1] None; Node.mk (Some "DP") None [] (Some 0);
       Node.mk (Some "T") None [] None; Node.mk (Some "NP") None [4] None;
       Node.mk None None [] (Some 3) ] !! i = Some n → c ∈ children n → i < c).
Proof.
  exact (from_dict_consistent (Dict (Some (Some "NP")) None (Some [Dict None None None]))
           [ Node.mk (Some "TP") None [1] None; Node.mk (Some "DP") None [] (Some 0);
             Node.mk (Some "T") None [] None ] 3 _ consistent_example eq_refl).
Defined.

(** X30. Moving the selection keeps the store consistent. *)
Theorem _shift_consistent direction (self self' : Tree.t) (w w' : world) :
  consistent (store w) → _shift direction self w = Ok (self', w') →
  consistent (store w').
Proof.
  intros Hh. unfold _shift. destruct (selection self) as [sel|]; [|done].
  destruct (same (Some sel) (root self)); [done|]. unfold parent_of, deref, assign, deref.
  destruct (store w !! sel) as [sn|]; [|done]. cbn.
  destruct (parent sn) as [p|]; [|done]. cbn.
  destruct (store w !! p) as [pn|] eqn:Hp; [|done]. cbn.
  destruct (index sel (children pn)) as [old|] eqn:Hold; [|done]. cbn.
  apply index_Ok in Hold. unfold pop_at. rewrite Hold. cbn. intros [= <- <-]. cbn.
  apply consistent_fewer_children; [done|done|]. intros y Hy.
  rewrite insert_at_Permutation in Hy. by rewrite (delete_Permutation _ _ _ Hold).
Qed.

Lemma _shift_consistent_witness :
  consistent (store (World [ Node.mk (Some "TP") None [1] None; Node.mk (Some "DP") None [] (Some 0);
                             Node.mk (Some "T") None [] None ] None ∅)).
Proof.
  exact (_shift_consistent 1 (Tree.mk false "" (Some 1) DEFAULT_MANIFEST (Some 0)) _
           (World [ Node.mk (Some "TP") None [1] None; Node.mk (Some "DP") None [] (Some 0);
                    Node.mk (Some "T") None [] None ] None ∅)
           _ consistent_example eq_refl).
Defined.

End consistency.
